(** * DevNullX route engine: the road-network graph and its Dijkstra router

    A shallow embedding of [src/services/dijkstra.ts] (class
    [DijkstraRouter]) and the properties of its shortest-path search,
    route synthesis and dynamic node insertion.  The last part of the
    model embeds what prices the routes: the geofence check and the toll
    of [src/services/geospatial.ts] (class [GeospatialService]) and
    [calculatePricing] of
    [src/components/logistics/DijkstraRouteCalculator.tsx].

    Conventions of the embedding.
    - A JavaScript [number] is taken as the rational number it stands
      for ([Q]); the value [Infinity], which the search uses for
      unreached nodes, is a separate constructor of [number].  The
      rounding and the overflow of binary64 arithmetic are not part of
      this: what is proved of weights and sums holds of the code up to
      rounding, and the statements whose outcome an overflow could change
      are made for the states of the router, whose weights are small.
    - Where rounding decides a whole number, the totals that
      [buildRouteResult] passes through [Math.round], the code is
      embedded a second time in binary64 arithmetic ([SpecFloat] of the
      standard library): [reportedTotals].  On the seed network the two
      embeddings give the same totals ([seed_totals_agree]).
    - [Map<string, GraphNode>] is iterated by the code, so it is an
      association list in insertion order ([JsMap]).  The maps that are
      only read and written by key ([edges], [distances], [previous]) are
      [gmap]s, the [visited] set a [gset], and the iterated [unvisited]
      set an insertion-ordered list without duplicates.
    - A call of the class either returns, throws a [TypeError] (a property
      read on [undefined]) or does not finish: [Completion]. *)

From Stdlib Require Import QArith Qround Qabs Lqa SpecFloat.
From stdpp Require Import gmap strings list fin_maps sorting.

Local Open Scope Q_scope.

(** ** Numbers *)

Inductive number : Type :=
  | Fin (q : Q)
  | Infinity.

(** [a < b] of JavaScript on the numbers of the model. *)
Definition number_lt (a b : number) : bool :=
  match a, b with
  | Fin x, Fin y => negb (Qle_bool y x)
  | Fin _, Infinity => true
  | Infinity, _ => false
  end.

(** [a + w] for a finite [w]. *)
Definition number_add (a : number) (w : Q) : number :=
  match a with
  | Fin x => Fin (x + w)
  | Infinity => Infinity
  end.

(** [Math.round]: the nearest integer, halves rounded up. *)
Definition Math_round (x : Q) : Q := inject_Z (Qfloor (x + (1 # 2))).

(** ** Outcome of a call *)

Inductive Completion (A : Type) : Type :=
  | Normal (a : A)
  | TypeError
  | OutOfFuel.
Arguments Normal {A} a.
Arguments TypeError {A}.
Arguments OutOfFuel {A}.

#[global] Instance Completion_bind : MBind Completion :=
  λ A B k c,
    match c with
    | Normal a => k a
    | TypeError => TypeError
    | OutOfFuel => OutOfFuel
    end.

(** ** Insertion-ordered maps and sets of JavaScript *)

Section JsMap.
Context {V : Type}.

Definition JsMap : Type := list (string * V).

Fixpoint Map_get (m : JsMap) (k : string) : option V :=
  match m with
  | [] => None
  | (k', v) :: m' => if decide (k' = k) then Some v else Map_get m' k
  end.

Definition Map_has (m : JsMap) (k : string) : bool :=
  match Map_get m k with Some _ => true | None => false end.

(** [m.set(k, v)]: an existing key keeps its position. *)
Fixpoint Map_set (m : JsMap) (k : string) (v : V) : JsMap :=
  match m with
  | [] => [(k, v)]
  | (k', v') :: m' =>
      if decide (k' = k) then (k, v) :: m' else (k', v') :: Map_set m' k v
  end.

Definition Map_keys (m : JsMap) : list string := m.*1.
End JsMap.
Arguments JsMap V : clear implicits.

Definition Set_add (x : string) (s : list string) : list string :=
  if decide (x ∈ s) then s else s ++ [x].

Definition Set_delete (x : string) (s : list string) : list string :=
  filter (λ y, y ≠ x) s.

(** ** Data model *)

Inductive NodeType := city | junction | toll | fuel | rest_area.

Record GraphNode := {
  node_id : string;
  node_lat : Q;
  node_lng : Q;
  node_name : string;
  node_type : NodeType
}.

Inductive RoadType := national_highway | state_highway | expressway | city_road.

Record GraphEdge := {
  edge_from : string;
  edge_to : string;
  edge_distance : Q;
  edge_time : Q;
  edge_cost : Q;
  edge_roadType : RoadType;
  edge_tollCost : Q;
  edge_trafficFactor : Q
}.

(** The instruction text of a segment is presentation only and is left
    out of the model. *)
Record RouteSegment := {
  seg_from : GraphNode;
  seg_to : GraphNode;
  seg_distance : Q;
  seg_time : Q;
  seg_roadType : RoadType
}.

Record RouteResult := {
  path : list string;
  totalDistance : Q;
  totalTime : Q;
  totalCost : Q;
  coordinates : list (Q * Q);
  segments : list RouteSegment
}.

Inductive OptimizeFor := distance | time | cost.

(** The state of a [DijkstraRouter]: its two private maps. *)
Record Graph := {
  nodes : JsMap GraphNode;
  edges : gmap string (list GraphEdge)
}.

Definition empty_graph : Graph := {| nodes := []; edges := ∅ |}.

(** ** Building the graph *)

Definition addEdge (edge : GraphEdge) (g : Graph) : Graph :=
  let es :=
    match edges g !! edge_from edge with
    | None => <[edge_from edge := []]> (edges g)
    | Some _ => edges g
    end in
  {| nodes := nodes g;
     edges := alter (λ l, l ++ [edge]) (edge_from edge) es |}.

Definition reverse_edge (edge : GraphEdge) : GraphEdge :=
  {| edge_from := edge_to edge;
     edge_to := edge_from edge;
     edge_distance := edge_distance edge;
     edge_time := edge_time edge;
     edge_cost := edge_cost edge;
     edge_roadType := edge_roadType edge;
     edge_tollCost := edge_tollCost edge;
     edge_trafficFactor := edge_trafficFactor edge |}.

Definition mkNode (i : string) (la ln : Q) (n : string) (t : NodeType) :=
  {| node_id := i; node_lat := la; node_lng := ln; node_name := n;
     node_type := t |}.

Definition mkEdge (f t : string) (d tm c : Q) (r : RoadType) (tc tf : Q) :=
  {| edge_from := f; edge_to := t; edge_distance := d; edge_time := tm;
     edge_cost := c; edge_roadType := r; edge_tollCost := tc;
     edge_trafficFactor := tf |}.

Definition indianNodes : list GraphNode := [
  mkNode "mumbai" (19076 # 1000) (728777 # 10000) "Mumbai" city;
  mkNode "delhi" (286139 # 10000) (77209 # 1000) "Delhi" city;
  mkNode "bangalore" (129716 # 10000) (775946 # 10000) "Bangalore" city;
  mkNode "chennai" (130827 # 10000) (802707 # 10000) "Chennai" city;
  mkNode "kolkata" (225726 # 10000) (883639 # 10000) "Kolkata" city;
  mkNode "pune" (185204 # 10000) (738567 # 10000) "Pune" city;
  mkNode "hyderabad" (17385 # 1000) (784867 # 10000) "Hyderabad" city;
  mkNode "ahmedabad" (230225 # 10000) (725714 # 10000) "Ahmedabad" city;
  mkNode "jaipur" (269124 # 10000) (757873 # 10000) "Jaipur" city;
  mkNode "surat" (211702 # 10000) (728311 # 10000) "Surat" city;
  mkNode "panvel_junction" (189894 # 10000) (731103 # 10000)
    "Panvel Junction" junction;
  mkNode "vadodara_junction" (223072 # 10000) (731812 # 10000)
    "Vadodara Junction" junction;
  mkNode "indore_junction" (227196 # 10000) (758577 # 10000)
    "Indore Junction" junction;
  mkNode "nagpur_junction" (211458 # 10000) (790882 # 10000)
    "Nagpur Junction" junction;
  mkNode "khalapur_toll" (188642 # 10000) (733467 # 10000)
    "Khalapur Toll Plaza" toll;
  mkNode "khed_toll" (187197 # 10000) (734 # 10) "Khed Toll Plaza" toll;
  mkNode "lonavala_fuel" (187537 # 10000) (734068 # 10000)
    "Lonavala Fuel Station" fuel;
  mkNode "nashik_fuel" (199975 # 10000) (737898 # 10000)
    "Nashik Fuel Station" fuel
].

Definition indianEdges : list GraphEdge := [
  mkEdge "mumbai" "panvel_junction" 42 45 50 expressway 0 (12 # 10);
  mkEdge "panvel_junction" "khalapur_toll" 28 25 30 expressway 85 1;
  mkEdge "khalapur_toll" "lonavala_fuel" 35 30 40 expressway 0 1;
  mkEdge "lonavala_fuel" "pune" 25 25 30 expressway 65 (11 # 10);
  mkEdge "mumbai" "surat" 284 300 350 national_highway 150 (13 # 10);
  mkEdge "surat" "vadodara_junction" 125 120 150 national_highway 80
    (11 # 10);
  mkEdge "vadodara_junction" "ahmedabad" 110 105 130 national_highway 70
    (12 # 10);
  mkEdge "delhi" "jaipur" 280 300 350 national_highway 120 (14 # 10);
  mkEdge "jaipur" "ahmedabad" 680 720 850 national_highway 280 (12 # 10);
  mkEdge "bangalore" "chennai" 346 360 420 national_highway 180 (13 # 10);
  mkEdge "bangalore" "hyderabad" 569 600 700 national_highway 250 (12 # 10);
  mkEdge "delhi" "nagpur_junction" 1050 1200 1300 national_highway 450
    (13 # 10);
  mkEdge "nagpur_junction" "kolkata" 520 600 650 national_highway 220
    (12 # 10)
].

(** [initializeIndianRoadNetwork], from the state of a fresh object. *)
Definition add_seed_node (g : Graph) (node : GraphNode) : Graph :=
  {| nodes := Map_set (nodes g) (node_id node) node;
     edges := <[node_id node := []]> (edges g) |}.

Definition add_seed_edge (g : Graph) (edge : GraphEdge) : Graph :=
  addEdge (reverse_edge edge) (addEdge edge g).

Definition initializeIndianRoadNetwork : Graph :=
  foldl add_seed_edge (foldl add_seed_node empty_graph indianNodes)
    indianEdges.

(** ** The shortest-path search *)

Definition weight (optimizeFor : OptimizeFor) (edge : GraphEdge) : Q :=
  match optimizeFor with
  | time => edge_time edge * edge_trafficFactor edge
  | cost => edge_cost edge + edge_tollCost edge
  | distance => edge_distance edge
  end.

(** [this.edges.get(id) || []] *)
Definition neighbors (g : Graph) (nodeId : string) : list GraphEdge :=
  default [] (edges g !! nodeId).

(** The four local collections of [findShortestPath].  In [previous],
    [None] is [null]. *)
Record SearchState := {
  distances : gmap string number;
  previous : gmap string (option string);
  visited : gset string;
  unvisited : list string
}.

Definition init_node (st : SearchState) (nodeId : string) : SearchState :=
  {| distances := <[nodeId := Infinity]> (distances st);
     previous := <[nodeId := None]> (previous st);
     visited := visited st;
     unvisited := Set_add nodeId (unvisited st) |}.

Definition init_state (g : Graph) (startId : string) : SearchState :=
  let st :=
    foldl init_node
      {| distances := ∅; previous := ∅; visited := ∅; unvisited := [] |}
      (Map_keys (nodes g)) in
  {| distances := <[startId := Fin 0]> (distances st);
     previous := previous st;
     visited := visited st;
     unvisited := unvisited st |}.

(** The scan for the unvisited node of minimum distance.  A key missing
    from [distances] reads as [undefined], which is not less than any
    number. *)
Fixpoint scan_min (dist : gmap string number) (l : list string)
    (currentNode : option string) (minDistance : number)
  : option string * number :=
  match l with
  | [] => (currentNode, minDistance)
  | nodeId :: l' =>
      match dist !! nodeId with
      | Some d =>
          if number_lt d minDistance
          then scan_min dist l' (Some nodeId) d
          else scan_min dist l' currentNode minDistance
      | None => scan_min dist l' currentNode minDistance
      end
  end.

Definition visit (currentNode : string) (st : SearchState) : SearchState :=
  {| distances := distances st;
     previous := previous st;
     visited := {[currentNode]} ∪ visited st;
     unvisited := Set_delete currentNode (unvisited st) |}.

(** One pass of the loop over the edges of [currentNode]. *)
Definition relax (optimizeFor : OptimizeFor) (currentNode : string)
    (st : SearchState) (edge : GraphEdge) : SearchState :=
  if decide (edge_to edge ∈ visited st) then st
  else
    match distances st !! currentNode, distances st !! (edge_to edge) with
    | Some dc, Some dt =>
        let newDistance := number_add dc (weight optimizeFor edge) in
        if number_lt newDistance dt
        then {| distances := <[edge_to edge := newDistance]> (distances st);
                previous := <[edge_to edge := Some currentNode]> (previous st);
                visited := visited st;
                unvisited := unvisited st |}
        else st
    | _, _ => st
    end.

(** The [while (unvisited.size > 0)] loop; one unit of fuel per pass. *)
Fixpoint search_loop (fuel : nat) (g : Graph) (endId : string)
    (optimizeFor : OptimizeFor) (st : SearchState) : Completion SearchState :=
  match unvisited st with
  | [] => Normal st
  | _ :: _ =>
      match fuel with
      | O => OutOfFuel
      | S fuel' =>
          match scan_min (distances st) (unvisited st) None Infinity with
          | (Some currentNode, Fin _) =>
              let st1 := visit currentNode st in
              if decide (currentNode = endId) then Normal st1
              else
                search_loop fuel' g endId optimizeFor
                  (foldl (relax optimizeFor currentNode) st1
                     (neighbors g currentNode))
          | _ => Normal st
          end
      end
  end.

(** The walk back along [previous].  A key missing from [previous] reads
    as [undefined], which is not [null]: the loop of the source would not
    end. *)
Fixpoint reconstruct (fuel : nat) (prev : gmap string (option string))
    (current : string) (path : list string) : Completion (list string) :=
  match fuel with
  | O => OutOfFuel
  | S fuel' =>
      match prev !! current with
      | Some None => Normal (current :: path)
      | Some (Some p) => reconstruct fuel' prev p (current :: path)
      | None => OutOfFuel
      end
  end.

(** ** Building the result *)

Record Totals := {
  acc_distance : Q;
  acc_time : Q;
  acc_cost : Q;
  acc_coordinates : list (Q * Q);
  acc_segments : list RouteSegment
}.

Definition find_edge (g : Graph) (fromId toId : string) : option GraphEdge :=
  List.find (λ e, bool_decide (edge_to e = toId)) (neighbors g fromId).

(** The [for] loop of [buildRouteResult] over the consecutive pairs of
    [path].  Reading [lat] of a node that is not stored, or [name] of such
    a node for the instruction text, throws. *)
Fixpoint build_loop (g : Graph) (path : list string) (acc : Totals)
  : Completion Totals :=
  match path with
  | fromId :: ((toId :: _) as rest) =>
      match Map_get (nodes g) fromId with
      | None => TypeError
      | Some fromNode =>
          let coords := acc_coordinates acc ++ [(node_lat fromNode, node_lng fromNode)] in
          match find_edge g fromId toId with
          | Some edge =>
              match Map_get (nodes g) toId with
              | None => TypeError
              | Some toNode =>
                  build_loop g rest
                    {| acc_distance := acc_distance acc + edge_distance edge;
                       acc_time :=
                         acc_time acc + edge_time edge * edge_trafficFactor edge;
                       acc_cost :=
                         acc_cost acc + (edge_cost edge + edge_tollCost edge);
                       acc_coordinates := coords;
                       acc_segments :=
                         acc_segments acc ++
                         [{| seg_from := fromNode;
                             seg_to := toNode;
                             seg_distance := edge_distance edge;
                             seg_time :=
                               edge_time edge * edge_trafficFactor edge;
                             seg_roadType := edge_roadType edge |}] |}
              end
          | None =>
              build_loop g rest
                {| acc_distance := acc_distance acc;
                   acc_time := acc_time acc;
                   acc_cost := acc_cost acc;
                   acc_coordinates := coords;
                   acc_segments := acc_segments acc |}
          end
      end
  | _ => Normal acc
  end.

(** [buildRouteResult]; its second parameter, which the source does not
    read, is left out. *)
Definition buildRouteResult (g : Graph) (path : list string)
  : Completion RouteResult :=
  acc ← build_loop g path
    {| acc_distance := 0; acc_time := 0; acc_cost := 0;
       acc_coordinates := []; acc_segments := [] |};
  coords ←
    match last path with
    | Some lastId =>
        match Map_get (nodes g) lastId with
        | Some lastNode =>
            Normal (acc_coordinates acc ++
                    [(node_lat lastNode, node_lng lastNode)])
        | None => TypeError
        end
    | None => Normal (acc_coordinates acc)
    end;
  Normal
    {| path := path;
       totalDistance := Math_round (acc_distance acc);
       totalTime := Math_round (acc_time acc);
       totalCost := Math_round (acc_cost acc);
       coordinates := coords;
       segments := acc_segments acc |}.

(** [findShortestPath]; [None] is the [null] of the source.  The mode is
    always given: the default ['distance'] of the source serves callers
    that leave the argument out. *)
Definition findShortestPath_fuel (fuel : nat) (g : Graph)
    (startId endId : string) (optimizeFor : OptimizeFor)
  : Completion (option RouteResult) :=
  if negb (Map_has (nodes g) startId) || negb (Map_has (nodes g) endId)
  then Normal None
  else
    st ← search_loop fuel g endId optimizeFor (init_state g startId);
    path ← reconstruct fuel (previous st) endId [];
    if decide (head path = Some startId)
    then r ← buildRouteResult g path; Normal (Some r)
    else Normal None.

(** Every pass of the search takes a node out of [unvisited] and every
    step of the walk back is a different node, so one unit of fuel per
    stored node is enough (see [findShortestPath_fuel_enough]). *)
Definition findShortestPath (g : Graph) (startId endId : string)
    (optimizeFor : OptimizeFor) : Completion (option RouteResult) :=
  findShortestPath_fuel (length (nodes g)) g startId endId optimizeFor.

(** ** The totals as the code computes them

    The numbers of the code are binary64 numbers and its sums round at
    every step.  For the weights of the search the rational numbers
    above stand for them; but where [Math.round] turns a sum into a
    whole number, the rounding of the sum decides which one.  The totals
    of [buildRouteResult] are therefore embedded a second time, in the
    arithmetic of binary64, which is [SpecFloat] of the standard library
    at precision 53 and exponent bound 1024. *)

Definition double : Type := spec_float.

Definition add64 : double → double → double := SFadd 53 1024.
Definition mul64 : double → double → double := SFmul 53 1024.
Definition div64 : double → double → double := SFdiv 53 1024.

(** The binary64 number nearest to a rational, ties to even: the number
    that a numeric literal denotes, and the result of a correctly
    rounded operation whose exact result is the rational.  The quotient
    of the numerator by the denominator is rounded once. *)
Definition of_Q (q : Q) : double :=
  match Qnum q with
  | Z0 => S754_zero false
  | Zpos n => div64 (S754_finite false n 0) (S754_finite false (Qden q) 0)
  | Zneg n => div64 (S754_finite true n 0) (S754_finite false (Qden q) 0)
  end.

(** The rational that a finite binary64 number is, in lowest terms. *)
Definition value64 (x : double) : option Q :=
  match x with
  | S754_zero _ => Some 0
  | S754_finite s m e =>
      Some (Qred (inject_Z (if s then Zneg m else Zpos m) * 2 ^ e))
  | S754_infinity _ | S754_nan => None
  end.

(** What [Math.round] returns: a whole number, an infinity or [NaN].
    The whole number nearest to a binary64 number is a binary64 number
    (from 2^52 on, every binary64 number is whole); the sign of a zero
    is not kept. *)
Inductive rounded : Type :=
  | Whole (z : Z)
  | Infinite (negative : bool)
  | NotANumber.

Definition Math_round64 (x : double) : rounded :=
  match x with
  | S754_infinity s => Infinite s
  | S754_nan => NotANumber
  | _ =>
      match value64 x with
      | Some q => Whole (Qfloor (q + (1 # 2)))
      | None => NotANumber
      end
  end.

Record Totals64 := {
  sum_distance : double;
  sum_time : double;
  sum_cost : double
}.

(** The loop of [buildRouteResult] once more, for the three sums:
    [totalDistance += edge.distance],
    [totalTime += edge.time * edge.trafficFactor] and
    [totalCost += edge.cost + edge.tollCost].  An attribute of an edge
    is the binary64 number nearest to the rational of the model: the
    literal of a seed edge, or for a synthesized edge the correctly
    rounded [distance / 60] and [distance * 8] of a distance that is a
    binary64 number. *)
Fixpoint build_loop64 (g : Graph) (path : list string) (acc : Totals64)
  : Completion Totals64 :=
  match path with
  | fromId :: ((toId :: _) as rest) =>
      match Map_get (nodes g) fromId with
      | None => TypeError
      | Some fromNode =>
          match find_edge g fromId toId with
          | Some edge =>
              match Map_get (nodes g) toId with
              | None => TypeError
              | Some toNode =>
                  build_loop64 g rest
                    {| sum_distance :=
                         add64 (sum_distance acc) (of_Q (edge_distance edge));
                       sum_time :=
                         add64 (sum_time acc)
                           (mul64 (of_Q (edge_time edge))
                              (of_Q (edge_trafficFactor edge)));
                       sum_cost :=
                         add64 (sum_cost acc)
                           (add64 (of_Q (edge_cost edge))
                              (of_Q (edge_tollCost edge))) |}
              end
          | None => build_loop64 g rest acc
          end
      end
  | _ => Normal acc
  end.

Record ReportedTotals := {
  reported_distance : rounded;
  reported_time : rounded;
  reported_cost : rounded
}.

(** [totalDistance], [totalTime] and [totalCost] of the result that
    [buildRouteResult] returns for [path]. *)
Definition reportedTotals (g : Graph) (path : list string)
  : Completion ReportedTotals :=
  acc ← build_loop64 g path
    {| sum_distance := S754_zero false; sum_time := S754_zero false;
       sum_cost := S754_zero false |};
  match last path with
  | Some lastId =>
      match Map_get (nodes g) lastId with
      | Some lastNode =>
          Normal
            {| reported_distance := Math_round64 (sum_distance acc);
               reported_time := Math_round64 (sum_time acc);
               reported_cost := Math_round64 (sum_cost acc) |}
      | None => TypeError
      end
  | None =>
      Normal
        {| reported_distance := Math_round64 (sum_distance acc);
           reported_time := Math_round64 (sum_time acc);
           reported_cost := Math_round64 (sum_cost acc) |}
  end.

(** ** Alternative routes *)

(** [JSON.stringify] gives two arrays of strings the same text exactly
    when they are equal, element by element. *)
Definition routesEqual (route1 route2 : option RouteResult) : bool :=
  match route1, route2 with
  | Some r1, Some r2 => bool_decide (path r1 = path r2)
  | _, _ => false
  end.

Definition findMultipleRoutes (g : Graph) (startId endId : string)
  : Completion (list RouteResult) :=
  shortestRoute ← findShortestPath g startId endId distance;
  let routes1 :=
    match shortestRoute with Some r => [r] | None => [] end in
  fastestRoute ← findShortestPath g startId endId time;
  let routes2 :=
    match fastestRoute with
    | Some r =>
        if negb (routesEqual shortestRoute fastestRoute)
        then routes1 ++ [r] else routes1
    | None => routes1
    end in
  economicalRoute ← findShortestPath g startId endId cost;
  let routes3 :=
    match economicalRoute with
    | Some r =>
        if negb (existsb (λ r', routesEqual (Some r') economicalRoute) routes2)
        then routes2 ++ [r] else routes2
    | None => routes2
    end in
  Normal routes3.

(** ** Dynamic nodes *)

Definition Qltb (a b : Q) : bool := negb (Qle_bool b a).

Record Nearby := {
  near_node : GraphNode;
  near_distance : Q
}.

(** [Array.prototype.sort] with the comparator [a.distance - b.distance]
    is stable: an insertion sort that puts an element before the first
    one that is not smaller. *)
Fixpoint insert_nearby (x : Nearby) (l : list Nearby) : list Nearby :=
  match l with
  | [] => [x]
  | y :: l' =>
      if Qle_bool (near_distance x) (near_distance y)
      then x :: y :: l'
      else y :: insert_nearby x l'
  end.

Definition sort_nearby (l : list Nearby) : list Nearby :=
  foldr insert_nearby [] l.

Section DynamicNode.
(** [calculateHaversineDistance] is built from [Math.sin], [Math.cos],
    [Math.atan2] and [Math.sqrt], which have no rational model; the
    insertion is verified for every distance function. *)
Variable calculateHaversineDistance : Q → Q → Q → Q → Q.

(** The loop over [this.nodes] that fills [nearbyNodes]. *)
Fixpoint nearbyNodes (newNode : GraphNode) (entries : JsMap GraphNode)
  : list Nearby :=
  match entries with
  | [] => []
  | (nodeId, node) :: rest =>
      if decide (nodeId = node_id newNode) then nearbyNodes newNode rest
      else
        let distance :=
          calculateHaversineDistance (node_lat newNode) (node_lng newNode)
            (node_lat node) (node_lng node) in
        if Qltb distance 100
        then {| near_node := node; near_distance := distance |}
             :: nearbyNodes newNode rest
        else nearbyNodes newNode rest
  end.

(** [nearbyNodes.sort(...).slice(0, 3)] *)
Definition nearest (newNode : GraphNode) (entries : JsMap GraphNode)
  : list Nearby :=
  take 3 (sort_nearby (nearbyNodes newNode entries)).

Definition dynamic_edge (newNode : GraphNode) (n : Nearby) : GraphEdge :=
  let distance := near_distance n in
  let estimatedTime := distance / 60 in
  let estimatedCost := distance * 8 in
  {| edge_from := node_id newNode;
     edge_to := node_id (near_node n);
     edge_distance := distance;
     edge_time := estimatedTime;
     edge_cost := estimatedCost;
     edge_roadType := state_highway;
     edge_tollCost := 0;
     edge_trafficFactor := 1 |}.

(** [{ ...edge, from: node.id, to: newNode.id }] *)
Definition dynamic_edge_back (newNode : GraphNode) (n : Nearby)
  : GraphEdge :=
  let edge := dynamic_edge newNode n in
  {| edge_from := node_id (near_node n);
     edge_to := node_id newNode;
     edge_distance := edge_distance edge;
     edge_time := edge_time edge;
     edge_cost := edge_cost edge;
     edge_roadType := edge_roadType edge;
     edge_tollCost := edge_tollCost edge;
     edge_trafficFactor := edge_trafficFactor edge |}.

Definition connect (newNode : GraphNode) (g : Graph) (n : Nearby) : Graph :=
  addEdge (dynamic_edge_back newNode n) (addEdge (dynamic_edge newNode n) g).

Definition connectToNearestNodes (newNode : GraphNode) (g : Graph) : Graph :=
  foldl (connect newNode) g (nearest newNode (nodes g)).

Definition addDynamicNode (node : GraphNode) (g : Graph) : Graph :=
  connectToNearestNodes node
    {| nodes := Map_set (nodes g) (node_id node) node;
       edges := <[node_id node := []]> (edges g) |}.
End DynamicNode.

(** ** Reading the nodes *)

(** [Array.from(this.nodes.values())] *)
Definition getAllNodes (g : Graph) : list GraphNode := (nodes g).*2.

Definition getNode (g : Graph) (id : string) : option GraphNode :=
  Map_get (nodes g) id.

(** * The geofences and the price of a route

    [src/services/geospatial.ts] (class [GeospatialService]) as far as
    [calculatePricing] of [DijkstraRouteCalculator.tsx] reaches it with
    the coordinates of a route: the geofence check, the toll of a list
    of points, and the price breakdown. *)

(** ** Values *)

(** A number or [NaN]; an [undefined] that is read as a number is
    [NaN]. *)
Inductive jsnum : Type :=
  | Num (q : Q)
  | NaN.

Definition jsnum_add (a b : jsnum) : jsnum :=
  match a, b with
  | Num x, Num y => Num (x + y)
  | _, _ => NaN
  end.

Definition jsnum_mul (a b : jsnum) : jsnum :=
  match a, b with
  | Num x, Num y => Num (x * y)
  | _, _ => NaN
  end.

(** [a <= b]: false when a side is [NaN]. *)
Definition jsnum_le (a b : jsnum) : bool :=
  match a, b with
  | Num x, Num y => Qle_bool x y
  | _, _ => false
  end.

(** [Math.round(a)] *)
Definition jsnum_round (a : jsnum) : jsnum :=
  match a with
  | Num x => Num (Math_round x)
  | NaN => NaN
  end.

(** What a read of an object literal of numbers gives after [|| d]: a
    number, or an inherited function or object. *)
Inductive jsval : Type :=
  | JNum (q : Q)
  | JObject.

(** The numeric value that [*] takes of it. *)
Definition to_number (v : jsval) : jsnum :=
  match v with
  | JNum q => Num q
  | JObject => NaN
  end.

(** The names that an object literal inherits from [Object.prototype]:
    a read of one of them gives a function (for [__proto__] the prototype
    object), which is truthy. *)
Definition Object_prototype_names : list string :=
  ["constructor"; "__defineGetter__"; "__defineSetter__"; "hasOwnProperty";
   "__lookupGetter__"; "__lookupSetter__"; "isPrototypeOf";
   "propertyIsEnumerable"; "toString"; "valueOf"; "__proto__";
   "toLocaleString"].

(** [table[key] || d] for an object literal [table] of numbers: [0] and
    [undefined] give [d]. *)
Definition lookup_or (table : JsMap Q) (key : string) (d : Q) : jsval :=
  match Map_get table key with
  | Some q => if Qeq_bool q 0 then JNum d else JNum q
  | None =>
      if bool_decide (key ∈ Object_prototype_names) then JObject else JNum d
  end.

(** ** Zones *)

Inductive ZoneType := circle | polygon.

Inductive ZoneCategory :=
  | cat_restricted | cat_toll | cat_checkpoint | cat_fuel | cat_rest_area.

Record ZoneProperties := {
  zone_state : string;
  zone_district : string;
  zone_category : ZoneCategory;
  zone_alerts : bool
}.

(** [coordinates] holds arrays [[lng, lat]]; [radius] is optional. *)
Record GeofenceZone := {
  zone_id : string;
  zone_name : string;
  zone_type : ZoneType;
  zone_coordinates : list (list Q);
  zone_radius : option Q;
  zone_properties : ZoneProperties
}.

Definition mkZone (i n : string) (t : ZoneType) (cs : list (list Q))
    (r : option Q) (st di : string) (c : ZoneCategory) (a : bool)
  : GeofenceZone :=
  {| zone_id := i; zone_name := n; zone_type := t; zone_coordinates := cs;
     zone_radius := r;
     zone_properties :=
       {| zone_state := st; zone_district := di; zone_category := c;
          zone_alerts := a |} |}.

Definition indianGeofences : list GeofenceZone :=
  [ mkZone "maharashtra_state" "Maharashtra State" polygon
      [ [726369 # 10000; 201204 # 10000]; [808913 # 10000; 201204 # 10000];
        [808913 # 10000; 220273 # 10000]; [726369 # 10000; 220273 # 10000];
        [726369 # 10000; 201204 # 10000] ]
      None "Maharashtra" "All" cat_checkpoint true;
    mkZone "delhi_ncr" "Delhi NCR Region" circle
      [ [772090 # 10000; 286139 # 10000] ]
      (Some 50000) "Delhi" "New Delhi" cat_restricted true;
    mkZone "mumbai_port" "Mumbai Port Trust Area" polygon
      [ [7282 # 100; 1892 # 100]; [7286 # 100; 1892 # 100];
        [7286 # 100; 1896 # 100]; [7282 # 100; 1896 # 100];
        [7282 # 100; 1892 # 100] ]
      None "Maharashtra" "Mumbai" cat_restricted true;
    mkZone "khalapur_toll" "Khalapur Toll Plaza" circle
      [ [733467 # 10000; 188642 # 10000] ]
      (Some 1000) "Maharashtra" "Raigad" cat_toll true;
    mkZone "bangalore_it_corridor" "Bangalore IT Corridor" polygon
      [ [775 # 10; 128 # 10]; [777 # 10; 128 # 10];
        [777 # 10; 131 # 10]; [775 # 10; 131 # 10];
        [775 # 10; 128 # 10] ]
      None "Karnataka" "Bangalore Urban" cat_restricted false ].

(** The private map [geofences] after the constructor. *)
Definition initializeIndianGeofences : JsMap GeofenceZone :=
  foldl (λ m geofence, Map_set m (zone_id geofence) geofence) []
    indianGeofences.

(** [this.geofences.set(geofence.id, geofence)] *)
Definition addGeofence (geofences : JsMap GeofenceZone)
    (geofence : GeofenceZone) : JsMap GeofenceZone :=
  Map_set geofences (zone_id geofence) geofence.

(** [this.geofences.delete(id)] *)
Definition removeGeofence (geofences : JsMap GeofenceZone) (id : string)
  : JsMap GeofenceZone :=
  filter (λ kv, kv.1 ≠ id) (geofences : list (string * GeofenceZone)).

(** [Array.from(this.geofences.values())] *)
Definition getAllGeofences (geofences : JsMap GeofenceZone)
  : list GeofenceZone :=
  geofences.*2.

(** ** Point in polygon *)

(** [v > y] for an entry [v] of a vertex that may be [undefined]. *)
Definition above (v : option Q) (y : Q) : bool :=
  match v with
  | Some q => Qltb y q
  | None => false
  end.

(** The test of one turn of the loop, for the vertices [polygon[i]] and
    [polygon[j]].  The right side of [&&] is evaluated only when the
    left side holds; an [undefined] entry makes its arithmetic [NaN] and
    the comparison false.  With the four entries there, the left side
    gives [yj - yi] other than [0]. *)
Definition crossing (x y : Q) (vi vj : list Q) : bool :=
  let xi := vi !! 0%nat in
  let yi := vi !! 1%nat in
  let xj := vj !! 0%nat in
  let yj := vj !! 1%nat in
  if negb (eqb (above yi y) (above yj y)) then
    match xi, yi, xj, yj with
    | Some xi, Some yi, Some xj, Some yj =>
        Qltb x ((xj - xi) * (y - yi) / (yj - yi) + xi)
    | _, _, _, _ => false
    end
  else false.

(** [for (let i = 0, j = polygon.length - 1; i < polygon.length; j = i++)]:
    [vj] is the vertex before the first of [rest]. *)
Fixpoint polygon_loop (x y : Q) (vj : list Q) (rest : list (list Q))
    (inside : bool) : bool :=
  match rest with
  | [] => inside
  | vi :: rest' =>
      polygon_loop x y vi rest'
        (if crossing x y vi vj then negb inside else inside)
  end.

Definition isPointInPolygon (lat lng : Q) (ring : list (list Q)) : bool :=
  let x := lng in
  let y := lat in
  match last ring with
  | Some vj => polygon_loop x y vj ring false
  | None => false
  end.

(** ** The geofence check and the toll *)

Definition stateTollRates : JsMap Q :=
  [("Maharashtra", 65); ("Gujarat", 55); ("Karnataka", 60);
   ("Tamil Nadu", 50); ("Rajasthan", 45); ("Uttar Pradesh", 40);
   ("Madhya Pradesh", 35); ("West Bengal", 30); ("Delhi", 25)].

Definition getBaseTollCost (state : string) : jsval :=
  lookup_or stateTollRates state 50.

Definition tollRates : JsMap Q :=
  [("car", 1); ("mini", 3 # 2); ("small", 2); ("medium", 5 # 2);
   ("large", 3); ("trailer", 4)].

(** [geofence.radius || 1000] *)
Definition radius_or_default (radius : option Q) : Q :=
  match radius with
  | Some r => if Qeq_bool r 0 then 1000 else r
  | None => 1000
  end.

Section Geofences.
(** [calculateDistance] is the haversine formula, built from [Math.sin],
    [Math.cos], [Math.atan2] and [Math.sqrt]: the check is verified for
    every function in its place.  On an [undefined] argument its
    arithmetic gives [NaN]. *)
Variable calculateDistance : Q → Q → Q → Q → jsnum.

(** A read of [center[1]] on a [center] that is [undefined] throws. *)
Definition isPointInGeofence (lat lng : Q) (geofence : GeofenceZone)
  : Completion bool :=
  match zone_type geofence with
  | circle =>
      match zone_coordinates geofence with
      | [] => TypeError
      | center :: _ =>
          let d :=
            match center !! 1%nat, center !! 0%nat with
            | Some clat, Some clng => calculateDistance lat lng clat clng
            | _, _ => NaN
            end in
          Normal
            (jsnum_le d
               (Num (radius_or_default (zone_radius geofence) / 1000)))
      end
  | polygon => Normal (isPointInPolygon lat lng (zone_coordinates geofence))
  end.

(** The loop of [checkGeofenceEntry] over the values of the map. *)
Fixpoint entered (lat lng : Q) (zones : list GeofenceZone)
    (enteredZones : list GeofenceZone) : Completion (list GeofenceZone) :=
  match zones with
  | [] => Normal enteredZones
  | geofence :: zones' =>
      b ← isPointInGeofence lat lng geofence;
      entered lat lng zones'
        (if (b : bool) then enteredZones ++ [geofence] else enteredZones)
  end.

Definition checkGeofenceEntry (geofences : JsMap GeofenceZone) (lat lng : Q)
  : Completion (list GeofenceZone) :=
  entered lat lng geofences.*2 [].

Definition is_toll (zone : GeofenceZone) : bool :=
  match zone_category (zone_properties zone) with
  | cat_toll => true
  | _ => false
  end.

(** [tollZones.forEach(...)]: [totalToll += baseCost * multiplier]. *)
Definition charge (multiplier : jsval) (totalToll : jsnum)
    (zone : GeofenceZone) : jsnum :=
  let baseCost := getBaseTollCost (zone_state (zone_properties zone)) in
  jsnum_add totalToll (jsnum_mul (to_number baseCost) (to_number multiplier)).

(** [for (let i = 0; i < route.length - 1; i++)]: the last point of the
    route is not looked at. *)
Fixpoint toll_loop (geofences : JsMap GeofenceZone) (multiplier : jsval)
    (route : list (Q * Q)) (totalToll : jsnum) : Completion jsnum :=
  match route with
  | segment :: ((_ :: _) as route') =>
      zones ← checkGeofenceEntry geofences segment.1 segment.2;
      let tollZones := filter (λ zone, is_toll zone = true) zones in
      toll_loop geofences multiplier route'
        (foldl (charge multiplier) totalToll tollZones)
  | _ => Normal totalToll
  end.

Definition calculateIndianTollCost (geofences : JsMap GeofenceZone)
    (route : list (Q * Q)) (vehicleType : string) : Completion jsnum :=
  let multiplier := lookup_or tollRates vehicleType 2 in
  totalToll ← toll_loop geofences multiplier route (Num 0);
  Normal (jsnum_round totalToll).

(** ** The price of a route *)

Record Pricing := {
  price_fuelCost : Q;
  price_tollCost : jsnum;
  price_permitCost : Q;
  price_driverCost : Q;
  price_maintenanceCost : Q;
  price_totalCost : jsnum;
  price_profitMargin : jsnum;
  price_customerPrice : jsnum
}.

(** [calculatePricing] of the route calculator, on the geofences of the
    service. *)
Definition calculatePricing (geofences : JsMap GeofenceZone)
    (route : RouteResult) : Completion Pricing :=
  let fuelCost := totalDistance route * 8 in
  tollCost ← calculateIndianTollCost geofences (coordinates route) "medium";
  let driverCost := totalTime route * 8 in
  let maintenanceCost := totalDistance route * 2 in
  let totalCost :=
    jsnum_add
      (jsnum_add (jsnum_add (Num fuelCost) tollCost) (Num driverCost))
      (Num maintenanceCost) in
  Normal
    {| price_fuelCost := Math_round fuelCost;
       price_tollCost := tollCost;
       price_permitCost := Math_round (totalDistance route * (1 # 2));
       price_driverCost := Math_round driverCost;
       price_maintenanceCost := Math_round maintenanceCost;
       price_totalCost := jsnum_round totalCost;
       price_profitMargin := jsnum_round (jsnum_mul totalCost (Num (1 # 4)));
       price_customerPrice :=
         jsnum_round (jsnum_mul totalCost (Num (5 # 4))) |}.
End Geofences.

(** ** The state of a point *)

Record StateRange := {
  range_name : string;
  latMin : Q;
  latMax : Q;
  lngMin : Q;
  lngMax : Q
}.

Definition stateRanges : list StateRange :=
  [ {| range_name := "Maharashtra"; latMin := 156 # 10; latMax := 22;
       lngMin := 726 # 10; lngMax := 809 # 10 |};
    {| range_name := "Karnataka"; latMin := 115 # 10; latMax := 184 # 10;
       lngMin := 74; lngMax := 786 # 10 |};
    {| range_name := "Tamil Nadu"; latMin := 8; latMax := 135 # 10;
       lngMin := 762 # 10; lngMax := 803 # 10 |};
    {| range_name := "Gujarat"; latMin := 201 # 10; latMax := 247 # 10;
       lngMin := 682 # 10; lngMax := 744 # 10 |};
    {| range_name := "Rajasthan"; latMin := 23; latMax := 302 # 10;
       lngMin := 695 # 10; lngMax := 783 # 10 |};
    {| range_name := "Uttar Pradesh"; latMin := 239 # 10; latMax := 304 # 10;
       lngMin := 771 # 10; lngMax := 846 # 10 |};
    {| range_name := "Madhya Pradesh"; latMin := 211 # 10; latMax := 269 # 10;
       lngMin := 74; lngMax := 828 # 10 |};
    {| range_name := "West Bengal"; latMin := 215 # 10; latMax := 272 # 10;
       lngMin := 858 # 10; lngMax := 899 # 10 |};
    {| range_name := "Delhi"; latMin := 284 # 10; latMax := 289 # 10;
       lngMin := 768 # 10; lngMax := 773 # 10 |} ].

Definition in_range (lat lng : Q) (state : StateRange) : bool :=
  Qle_bool (latMin state) lat && Qle_bool lat (latMax state) &&
  Qle_bool (lngMin state) lng && Qle_bool lng (lngMax state).

(** The first range of the list that holds the point gives the name. *)
Definition getIndianStateFromCoordinates (lat lng : Q) : string :=
  match List.find (in_range lat lng) stateRanges with
  | Some state => range_name state
  | None => "Unknown"
  end.

(** * Specification *)

(** ** Paths and weights *)

(** [walk g startId optimizeFor v p w]: [p] is the node sequence of a path
    of [g] from [startId] to [v], every node of it a stored node and every
    hop an edge stored in the adjacency list of its source, and [w] is the
    sum of the weights of these edges. *)
Inductive walk (g : Graph) (startId : string) (optimizeFor : OptimizeFor)
  : string → list string → Q → Prop :=
  | walk_start :
      startId ∈ Map_keys (nodes g) →
      walk g startId optimizeFor startId [startId] 0
  | walk_step u p w edge :
      walk g startId optimizeFor u p w →
      edge ∈ neighbors g u →
      edge_to edge ∈ Map_keys (nodes g) →
      walk g startId optimizeFor (edge_to edge) (p ++ [edge_to edge])
        (w + weight optimizeFor edge).

(** Every stored edge has a weight that is not negative. *)
Definition nonneg_weights (g : Graph) (optimizeFor : OptimizeFor) : Prop :=
  ∀ u edge, edge ∈ neighbors g u → 0 <= weight optimizeFor edge.

(** A check of [nonneg_weights] that can be run. *)
Definition nonneg_weightsb (g : Graph) (optimizeFor : OptimizeFor) : bool :=
  forallb (λ kv, forallb (λ e, Qle_bool 0 (weight optimizeFor e)) kv.2)
    (map_to_list (edges g)).

(** [chain prev startId v p]: following [prev] back from [v] gives [p] and
    ends with [null] at [startId]. *)
Inductive chain (prev : gmap string (option string)) (startId : string)
  : string → list string → Prop :=
  | chain_start :
      prev !! startId = Some None → chain prev startId startId [startId]
  | chain_step u v p :
      prev !! v = Some (Some u) →
      chain prev startId u p →
      chain prev startId v (p ++ [v]).

(** ** The invariant of the search *)

(** What the scan has found after the nodes of [seen]. *)
Definition scan_spec (dist : gmap string number) (seen : list string)
    (r : option string * number) : Prop :=
  (r = (None, Infinity) ∧
   ∀ k d, k ∈ seen → dist !! k ≠ Some (Fin d)) ∨
  (∃ c d, r = (Some c, Fin d) ∧ c ∈ seen ∧ dist !! c = Some (Fin d) ∧
          ∀ k d', k ∈ seen → dist !! k = Some (Fin d') → d <= d').

Section SearchInvariants.
Variable g : Graph.
Variable startId : string.
Variable optimizeFor : OptimizeFor.

Local Abbreviation keys := (Map_keys (nodes g)).

(** What holds of the four collections between two statements of the
    loop. *)
Record Inv (st : SearchState) : Prop := {
  inv_dist_dom : ∀ k, is_Some (distances st !! k) ↔ k ∈ keys;
  inv_prev_dom : ∀ k, is_Some (previous st !! k) ↔ k ∈ keys;
  inv_unvisited_NoDup : NoDup (unvisited st);
  inv_unvisited : ∀ k, k ∈ unvisited st ↔ k ∈ keys ∧ k ∉ visited st;
  inv_start_dist : distances st !! startId = Some (Fin 0);
  inv_start_prev : previous st !! startId = Some None;
  inv_fresh :
    startId ∉ visited st →
    ∀ k d, k ≠ startId → distances st !! k ≠ Some (Fin d);
  inv_prev :
    ∀ v u, previous st !! v = Some (Some u) →
      u ∈ visited st ∧
      ∃ edge du, edge ∈ neighbors g u ∧ edge_to edge = v ∧
        distances st !! u = Some (Fin du) ∧
        distances st !! v = Some (Fin (du + weight optimizeFor edge));
  inv_finite_prev :
    ∀ v d, v ≠ startId → distances st !! v = Some (Fin d) →
      ∃ u, previous st !! v = Some (Some u);
  inv_inf_prev :
    ∀ v, distances st !! v = Some Infinity → previous st !! v = Some None;
  inv_visited :
    ∀ v, v ∈ visited st →
      ∃ p d, chain (previous st) startId v p ∧
        walk g startId optimizeFor v p d ∧
        distances st !! v = Some (Fin d) ∧
        (∀ x, x ∈ p → x ∈ visited st) ∧ NoDup p;
  inv_opt :
    nonneg_weights g optimizeFor →
    ∀ v p w d, v ∈ visited st →
      walk g startId optimizeFor v p w →
      distances st !! v = Some (Fin d) → d <= w
}.

(** Every edge that has been relaxed bounds the distance of its target:
    the edges of the visited nodes other than [c], and the edges [done] of
    [c]. *)
Definition RelaxedBut (c : string) (done : list GraphEdge)
    (st : SearchState) : Prop :=
  ∀ u edge, u ∈ visited st → edge ∈ neighbors g u →
    u ≠ c ∨ edge ∈ done →
    edge_to edge ∈ keys → edge_to edge ∉ visited st →
    ∃ du dt, distances st !! u = Some (Fin du) ∧
      distances st !! (edge_to edge) = Some (Fin dt) ∧
      dt <= du + weight optimizeFor edge.

Definition Relaxed (st : SearchState) : Prop :=
  ∀ u edge, u ∈ visited st → edge ∈ neighbors g u →
    edge_to edge ∈ keys → edge_to edge ∉ visited st →
    ∃ du dt, distances st !! u = Some (Fin du) ∧
      distances st !! (edge_to edge) = Some (Fin dt) ∧
      dt <= du + weight optimizeFor edge.

(** The state in which the loop ends: either [endId] has been visited, or
    every edge out of the visited nodes has been relaxed and no unvisited
    node has a finite distance. *)
Definition Final (endId : string) (st : SearchState) : Prop :=
  Inv st ∧
  (endId ∈ visited st ∨
   (Relaxed st ∧ ∀ k d, k ∈ unvisited st → distances st !! k ≠ Some (Fin d))).

End SearchInvariants.

Arguments inv_dist_dom {g startId optimizeFor} st _.
Arguments inv_prev_dom {g startId optimizeFor} st _.
Arguments inv_unvisited_NoDup {g startId optimizeFor} st _.
Arguments inv_unvisited {g startId optimizeFor} st _.
Arguments inv_start_dist {g startId optimizeFor} st _.
Arguments inv_start_prev {g startId optimizeFor} st _.
Arguments inv_fresh {g startId optimizeFor} st _.
Arguments inv_prev {g startId optimizeFor} st _.
Arguments inv_finite_prev {g startId optimizeFor} st _.
Arguments inv_inf_prev {g startId optimizeFor} st _.
Arguments inv_visited {g startId optimizeFor} st _.
Arguments inv_opt {g startId optimizeFor} st _.

(** The states that the collections of a search from [startId] go
    through: the initial one, and those reached from it by marking a node
    visited or relaxing an edge. *)
Inductive in_search (g : Graph) (startId : string) (m : OptimizeFor)
  : SearchState → Prop :=
  | in_search_init :
      Map_has (nodes g) startId = true →
      in_search g startId m (init_state g startId)
  | in_search_visit st c :
      in_search g startId m st → in_search g startId m (visit c st)
  | in_search_relax st c edge :
      in_search g startId m st →
      in_search g startId m (relax m c st edge).

(** ** Routes and their totals *)

(** The edges that [buildRouteResult] adds up: for each consecutive pair
    of the path, the first stored edge between them. *)
Fixpoint path_edges (g : Graph) (path : list string) : list GraphEdge :=
  match path with
  | fromId :: ((toId :: _) as rest) =>
      match find_edge g fromId toId with
      | Some edge => edge :: path_edges g rest
      | None => path_edges g rest
      end
  | _ => []
  end.

(** The sum that the loop accumulates, in its order. *)
Definition sum_by (f : GraphEdge → Q) (es : list GraphEdge) : Q :=
  foldl (λ a e, a + f e) 0 es.

Definition effective_time (e : GraphEdge) : Q :=
  edge_time e * edge_trafficFactor e.

Definition full_cost (e : GraphEdge) : Q := edge_cost e + edge_tollCost e.



(** [z] is the integer nearest to [x], a half rounded up. *)
Definition nearest_integer (z : Z) (x : Q) : Prop :=
  inject_Z z <= x + (1 # 2) ∧ x + (1 # 2) < inject_Z z + 1.


(** ** Dynamic nodes *)

(** The edges that [connectToNearestNodes] stores for the chosen
    neighbours, in the order of the calls of [addEdge]. *)
Definition synthesized (newNode : GraphNode) (l : list Nearby)
  : list GraphEdge :=
  n ← l; [dynamic_edge newNode n; dynamic_edge_back newNode n].

#[global] Instance Q_eq_dec : EqDecision Q.
Proof. solve_decision. Defined.

#[global] Instance RoadType_eq_dec : EqDecision RoadType.
Proof. solve_decision. Defined.

#[global] Instance GraphEdge_eq_dec : EqDecision GraphEdge.
Proof. solve_decision. Defined.

(** Every node is stored under its own id, as the two writers of [nodes]
    store it. *)
Definition keys_match (g : Graph) : Prop :=
  ∀ k n, (k, n) ∈ nodes g → node_id n = k.

Definition keys_matchb (g : Graph) : bool :=
  forallb (λ kn, bool_decide (node_id kn.2 = kn.1)) (nodes g).

(** Every stored edge has its reverse, with the same attributes, in the
    adjacency list of its target. *)
Definition symmetric (g : Graph) : Prop :=
  ∀ u e, e ∈ neighbors g u → reverse_edge e ∈ neighbors g (edge_to e).

Definition symmetricb (g : Graph) : bool :=
  forallb
    (λ kv, forallb
             (λ e, bool_decide (reverse_edge e ∈ neighbors g (edge_to e)))
             kv.2)
    (map_to_list (edges g)).

Definition nearer (a b : Nearby) : Prop := near_distance a <= near_distance b.

(** ** Networks and nodes of the examples *)

(** A network with a dangling edge: [b] has an edge to [c], which is not
    a node. *)
Definition dangling_graph : Graph :=
  addEdge (mkEdge "b" "c" 1 1 1 city_road 0 1)
    (addEdge (mkEdge "a" "b" 1 1 1 city_road 0 1)
       (foldl add_seed_node empty_graph
          [mkNode "a" 0 0 "A" city; mkNode "b" 0 1 "B" city])).

(** A network with a negative cost: the edge from [c] to [b] pays 5
    back. *)
Definition rebate_graph : Graph :=
  addEdge (mkEdge "c" "b" 1 1 (-5) city_road 0 1)
    (addEdge (mkEdge "a" "c" 1 1 3 city_road 0 1)
       (addEdge (mkEdge "a" "b" 1 1 2 city_road 0 1)
          (foldl add_seed_node empty_graph
             [mkNode "a" 0 0 "A" city; mkNode "b" 0 1 "B" city;
              mkNode "c" 1 0 "C" city]))).

(** A distance for the examples: 111 km for a degree of latitude and for
    a degree of longitude. *)
Definition flat_distance (lat1 lng1 lat2 lng2 : Q) : Q :=
  111 * (Qabs (lat2 - lat1) + Qabs (lng2 - lng1)).

Definition depot : GraphNode :=
  mkNode "depot" (1875 # 100) (734 # 10) "Depot" city.

Definition pune_moved : GraphNode :=
  mkNode "pune" (1875 # 100) (734 # 10) "Pune" city.

(** ** The states of the router *)

(** The shape of the two maps: every node is stored under its own id and
    has an adjacency list, and every edge is stored under its [from], which
    is a stored node as its [to] is. *)
Definition well_formed (g : Graph) : Prop :=
  keys_match g ∧
  (∀ k, k ∈ Map_keys (nodes g) → is_Some (edges g !! k)) ∧
  (∀ u e, e ∈ neighbors g u →
     edge_from e = u ∧ u ∈ Map_keys (nodes g) ∧
     edge_to e ∈ Map_keys (nodes g)).

Definition well_formedb (g : Graph) : bool :=
  keys_matchb g &&
  forallb (λ k, bool_decide (is_Some (edges g !! k))) (Map_keys (nodes g)) &&
  forallb
    (λ kv, forallb
             (λ e, bool_decide (edge_from e = kv.1) &&
                   Map_has (nodes g) kv.1 && Map_has (nodes g) (edge_to e))
             kv.2)
    (map_to_list (edges g)).

(** The states that the public interface of the class reaches: the one
    the constructor builds, and those that calls of [addDynamicNode] lead
    to. *)
Inductive router_state (hav : Q → Q → Q → Q → Q) : Graph → Prop :=
  | router_initial : router_state hav initializeIndianRoadNetwork
  | router_insert g node :
      router_state hav g → router_state hav (addDynamicNode hav node g).

(** ** The coordinates and segments of a route *)

Definition coordinate (n : GraphNode) : Q * Q := (node_lat n, node_lng n).

(** One segment for each pair of consecutive nodes and its edge. *)
Fixpoint segments_of (ns : list GraphNode) (es : list GraphEdge)
  : list RouteSegment :=
  match ns, es with
  | n1 :: ((n2 :: _) as ns'), e :: es' =>
      {| seg_from := n1;
         seg_to := n2;
         seg_distance := edge_distance e;
         seg_time := effective_time e;
         seg_roadType := edge_roadType e |} :: segments_of ns' es'
  | _, _ => []
  end.

(** A node far from every node of the seed network. *)
Definition island : GraphNode := mkNode "island" 0 0 "Island" city.

(** ** Geofences *)

(** The ring of a rectangle as the constructor writes it: from the
    corner [(a, b)] around and back to it. *)
Definition rectangle (a b c d : Q) : list (list Q) :=
  [[a; b]; [c; b]; [c; d]; [a; d]; [a; b]].

(** A circle has a centre to read. *)
Definition has_centre (zone : GeofenceZone) : bool :=
  match zone_type zone, zone_coordinates zone with
  | circle, [] => false
  | _, _ => true
  end.

(** The point is within 1 km of the centre of the Khalapur toll plaza,
    for the distance function [d]. *)
Definition at_khalapur (d : Q → Q → Q → Q → jsnum) (p : Q * Q) : bool :=
  jsnum_le (d p.1 p.2 (188642 # 10000) (733467 # 10000)) (Num 1).

(** A distance function for the examples. *)
Definition flat_km (lat1 lng1 lat2 lng2 : Q) : jsnum :=
  Num (flat_distance lat1 lng1 lat2 lng2).

(** A zone without a centre. *)
Definition broken_zone : GeofenceZone :=
  mkZone "broken" "Broken" circle [] (Some 500) "Goa" "Panaji" cat_fuel true.

(** A zone that is no toll plaza. *)
Definition rest_zone : GeofenceZone :=
  mkZone "dhaba" "Dhaba" circle [[7385 # 100; 1852 # 100]] None
    "Maharashtra" "Pune" cat_rest_area false.

(** The check of a zone returns [true]. *)
Definition point_in_zone (d : Q → Q → Q → Q → jsnum) (lat lng : Q)
    (zone : GeofenceZone) : bool :=
  match isPointInGeofence d lat lng zone with
  | Normal true => true
  | _ => false
  end.

(** Some point of the route other than the last is at the Khalapur toll
    plaza. *)
Definition passes_khalapur (d : Q → Q → Q → Q → jsnum)
    (route : list (Q * Q)) : bool :=
  existsb (at_khalapur d) (removelast route).

(** ** The totals in binary64 *)







(** ** Roads by their length *)


(** ** Insertion of new nodes *)


(** ** The two embeddings of the totals *)

(** The totals of the result of a search in exact arithmetic and the
    totals in binary64 are the same whole numbers. *)
Definition totals_agree (g : Graph) (s e : string) (m : OptimizeFor)
  : bool :=
  match findShortestPath g s e m with
  | Normal (Some r) =>
      match reportedTotals g (path r) with
      | Normal t =>
          match reported_distance t, reported_time t, reported_cost t with
          | Whole d, Whole tm, Whole c =>
              Qeq_bool (totalDistance r) (inject_Z d) &&
              Qeq_bool (totalTime r) (inject_Z tm) &&
              Qeq_bool (totalCost r) (inject_Z c)
          | _, _, _ => false
          end
      | _ => false
      end
  | Normal None => true
  | _ => false
  end.

Definition all_totals_agree (g : Graph) : bool :=
  forallb
    (λ s, forallb
            (λ e, forallb (totals_agree g s e) [distance; time; cost])
            (Map_keys (nodes g)))
    (Map_keys (nodes g)).

(** ** The size of the weights *)

(** No stored edge has a weight above [bound]. *)
Definition bounded_weights (g : Graph) (optimizeFor : OptimizeFor)
    (bound : Q) : Prop :=
  ∀ u edge, edge ∈ neighbors g u → weight optimizeFor edge <= bound.

Definition bounded_weightsb (g : Graph) (optimizeFor : OptimizeFor)
    (bound : Q) : bool :=
  forallb (λ kv, forallb (λ e, Qle_bool (weight optimizeFor e) bound) kv.2)
    (map_to_list (edges g)).

(** * Properties *)

(** ** Maps and sets *)

Section JsMapFacts.
Context {V : Type}.
Implicit Types (m : JsMap V) (k : string).

Lemma Map_has_true m k : Map_has m k = true ↔ k ∈ Map_keys m.
Proof.
  unfold Map_has, Map_keys. induction m as [|[k' v] m IH]; simpl.
  - split; [discriminate | intros H; inversion H].
  - destruct (decide (k' = k)) as [->|Hne].
    + split; [intros _; left | done].
    + rewrite IH. split; [by right | ].
      intros H. inversion H; subst; [done | assumption].
Qed.

Lemma Map_has_false m k : Map_has m k = false ↔ k ∉ Map_keys m.
Proof.
  rewrite <- Map_has_true. destruct (Map_has m k); split; congruence.
Qed.

Lemma Map_get_Some m k : k ∈ Map_keys m → is_Some (Map_get m k).
Proof.
  intros H. apply Map_has_true in H. unfold Map_has in H.
  destruct (Map_get m k); [eauto | discriminate].
Qed.

Lemma Map_get_set_eq m k v : Map_get (Map_set m k v) k = Some v.
Proof.
  induction m as [|[k' v'] m IH]; simpl.
  - by rewrite decide_True.
  - destruct (decide (k' = k)) as [->|Hne]; simpl.
    + by rewrite decide_True.
    + by rewrite decide_False.
Qed.

Lemma Map_get_set_ne m k k' v :
  k ≠ k' → Map_get (Map_set m k v) k' = Map_get m k'.
Proof.
  intros Hne. induction m as [|[k0 v0] m IH]; simpl.
  - by rewrite decide_False.
  - destruct (decide (k0 = k)) as [->|Hne0]; simpl.
    + by rewrite !decide_False.
    + by rewrite IH.
Qed.
End JsMapFacts.

Lemma Map_set_elem {V} (m : JsMap V) k v k' v' :
  (k', v') ∈ Map_set m k v → (k', v') = (k, v) ∨ (k', v') ∈ m.
Proof.
  induction m as [|[k0 v0] m IH]; simpl.
  - intros ->%list_elem_of_singleton. by left.
  - destruct (decide (k0 = k)) as [->|Hne].
    + intros [->|H]%elem_of_cons; [by left | right; by right].
    + intros [->|H]%elem_of_cons; [right; by left|].
      destruct (IH H) as [->|Hin]; [by left | right; by right].
Qed.

Lemma Set_add_elem x y s : y ∈ Set_add x s ↔ y = x ∨ y ∈ s.
Proof.
  unfold Set_add. destruct (decide (x ∈ s)).
  - split; [by right | intros [->|]; done].
  - rewrite elem_of_app, list_elem_of_singleton. tauto.
Qed.

Lemma Set_add_NoDup x s : NoDup s → NoDup (Set_add x s).
Proof.
  unfold Set_add. intros H. destruct (decide (x ∈ s)); [done|].
  apply NoDup_app. split_and!; [done | | apply NoDup_singleton].
  intros y Hy ->%list_elem_of_singleton. done.
Qed.

Lemma Set_add_length x s : (length (Set_add x s) ≤ S (length s))%nat.
Proof.
  unfold Set_add. destruct (decide (x ∈ s)); [lia|].
  rewrite length_app. simpl. lia.
Qed.

Lemma Set_delete_elem x y s : y ∈ Set_delete x s ↔ y ≠ x ∧ y ∈ s.
Proof. unfold Set_delete. by rewrite list_elem_of_filter. Qed.

Lemma Set_delete_NoDup x s : NoDup s → NoDup (Set_delete x s).
Proof. apply NoDup_filter. Qed.

Lemma Set_delete_length x s :
  x ∈ s → (length (Set_delete x s) < length s)%nat.
Proof.
  unfold Set_delete. induction s as [|y s IH]; intros H.
  - inversion H.
  - rewrite filter_cons. destruct (decide (y ≠ x)) as [Hne|Heq]; simpl.
    + assert (x ∈ s) as Hin by (inversion H; subst; done).
      specialize (IH Hin). lia.
    + pose proof (length_filter (λ y, y ≠ x) s). lia.
Qed.

(** ** Numbers *)

Lemma Qltb_lt (a b : Q) : Qltb a b = true ↔ a < b.
Proof.
  unfold Qltb. rewrite negb_true_iff, <- not_true_iff_false, Qle_bool_iff.
  split; [apply Qnot_le_lt | apply Qlt_not_le].
Qed.

Lemma number_lt_Fin (x y : Q) : number_lt (Fin x) (Fin y) = true ↔ x < y.
Proof. apply Qltb_lt. Qed.

Lemma number_lt_Fin_false (x y : Q) :
  number_lt (Fin x) (Fin y) = false ↔ y <= x.
Proof.
  rewrite <- not_true_iff_false, number_lt_Fin.
  split; [apply Qnot_lt_le | apply Qle_not_lt].
Qed.

(** ** The initial state of the search *)

Section InitState.
Variable g : Graph.
Variable startId : string.

Local Abbreviation keys := (Map_keys (nodes g)).

Lemma init_fold (l : list string) (st : SearchState) :
  let st' := foldl init_node st l in
  (∀ k, distances st' !! k =
        if decide (k ∈ l) then Some Infinity else distances st !! k) ∧
  (∀ k, previous st' !! k =
        if decide (k ∈ l) then Some None else previous st !! k) ∧
  visited st' = visited st ∧
  (NoDup (unvisited st) → NoDup (unvisited st')) ∧
  (∀ k, k ∈ unvisited st' ↔ k ∈ l ∨ k ∈ unvisited st) ∧
  (length (unvisited st') ≤ length l + length (unvisited st))%nat.
Proof.
  revert st. induction l as [|x l IH]; intros st; simpl.
  - split_and!; try done.
    intros k. split; [by right | intros [H|H]; [inversion H | done]].
  - destruct (IH (init_node st x)) as (Hd & Hp & Hv & Hn & He & Hl).
    split_and!.
    + intros k. rewrite Hd. simpl.
      destruct (decide (k ∈ l)) as [Hin|Hin].
      * rewrite decide_True; [done | by right].
      * destruct (decide (k = x)) as [->|Hne].
        -- rewrite decide_True; [| by left]. apply lookup_insert_eq.
        -- rewrite decide_False.
           ++ by apply lookup_insert_ne.
           ++ intros H. inversion H; subst; done.
    + intros k. rewrite Hp. simpl.
      destruct (decide (k ∈ l)) as [Hin|Hin].
      * rewrite decide_True; [done | by right].
      * destruct (decide (k = x)) as [->|Hne].
        -- rewrite decide_True; [| by left]. apply lookup_insert_eq.
        -- rewrite decide_False.
           ++ by apply lookup_insert_ne.
           ++ intros H. inversion H; subst; done.
    + by rewrite Hv.
    + intros H. apply Hn. simpl. by apply Set_add_NoDup.
    + intros k. rewrite He. simpl. rewrite Set_add_elem, elem_of_cons.
      tauto.
    + simpl in Hl. pose proof (Set_add_length x (unvisited st)). lia.
Qed.

Lemma init_distances (k : string) :
  distances (init_state g startId) !! k =
  if decide (k = startId) then Some (Fin 0)
  else if decide (k ∈ keys) then Some Infinity else None.
Proof.
  unfold init_state. simpl. destruct (decide (k = startId)) as [->|Hne].
  - apply lookup_insert_eq.
  - rewrite lookup_insert_ne by done.
    destruct (init_fold keys
      {| distances := ∅; previous := ∅; visited := ∅; unvisited := [] |})
      as (Hd & _). by rewrite Hd.
Qed.

Lemma init_previous (k : string) :
  previous (init_state g startId) !! k =
  if decide (k ∈ keys) then Some None else None.
Proof.
  unfold init_state. simpl.
  destruct (init_fold keys
    {| distances := ∅; previous := ∅; visited := ∅; unvisited := [] |})
    as (_ & Hp & _). by rewrite Hp.
Qed.

Lemma init_visited : visited (init_state g startId) = ∅.
Proof.
  unfold init_state. simpl.
  destruct (init_fold keys
    {| distances := ∅; previous := ∅; visited := ∅; unvisited := [] |})
    as (_ & _ & Hv & _). exact Hv.
Qed.

Lemma init_unvisited :
  NoDup (unvisited (init_state g startId)) ∧
  (∀ k, k ∈ unvisited (init_state g startId) ↔ k ∈ keys) ∧
  (length (unvisited (init_state g startId)) ≤ length (nodes g))%nat.
Proof.
  unfold init_state. simpl.
  destruct (init_fold keys
    {| distances := ∅; previous := ∅; visited := ∅; unvisited := [] |})
    as (_ & _ & _ & Hn & He & Hl). simpl in *.
  split_and!.
  - apply Hn, NoDup_nil_2.
  - intros k. rewrite He. split.
    + intros [H|H]; [done | inversion H].
    + intros H. by left.
  - unfold Map_keys in *. rewrite length_fmap in Hl. lia.
Qed.
End InitState.

(** ** The scan for the minimum *)

Lemma scan_min_spec_gen dist l seen cur minD :
  scan_spec dist seen (cur, minD) →
  scan_spec dist (seen ++ l) (scan_min dist l cur minD).
Proof.
  revert seen cur minD. induction l as [|x l IH]; intros seen cur minD H; simpl.
  - by rewrite app_nil_r.
  - replace (seen ++ x :: l) with ((seen ++ [x]) ++ l)
      by (by rewrite <- app_assoc).
    destruct (dist !! x) as [dx|] eqn:Hx.
    + destruct (number_lt dx minD) eqn:Hlt.
      * apply IH. right. destruct dx as [qx|]; [|done].
        exists x, qx. split_and!; [done | set_solver | done |].
        intros k d' Hk Hd'. apply elem_of_app in Hk as [Hk|Hk].
        -- destruct H as [[_ Hno]|(c & d & Heq & _ & _ & Hmin)].
           ++ by destruct (Hno k d' Hk).
           ++ injection Heq as -> ->. apply number_lt_Fin in Hlt.
              specialize (Hmin k d' Hk Hd'). lra.
        -- apply list_elem_of_singleton in Hk as ->.
           rewrite Hx in Hd'. injection Hd' as ->. lra.
      * apply IH. destruct H as [[Heq Hno]|(c & d & Heq & Hc & Hdc & Hmin)].
        -- left. split; [done|]. injection Heq as -> ->.
           intros k d Hk Hd. apply elem_of_app in Hk as [Hk|Hk].
           ++ by apply (Hno k d Hk).
           ++ apply list_elem_of_singleton in Hk as ->.
              rewrite Hx in Hd. injection Hd as ->. done.
        -- right. exists c, d. injection Heq as -> ->.
           split_and!; [done | set_solver | done |].
           intros k d' Hk Hd'. apply elem_of_app in Hk as [Hk|Hk].
           ++ by apply (Hmin k d').
           ++ apply list_elem_of_singleton in Hk as ->.
              rewrite Hx in Hd'. injection Hd' as ->.
              by apply number_lt_Fin_false in Hlt.
    + apply IH. destruct H as [[Heq Hno]|(c & d & Heq & Hc & Hdc & Hmin)].
      * left. split; [done|]. intros k d Hk Hd.
        apply elem_of_app in Hk as [Hk|Hk]; [by apply (Hno k d Hk)|].
        apply list_elem_of_singleton in Hk as ->. congruence.
      * right. exists c, d. split_and!; [done | set_solver | done |].
        intros k d' Hk Hd'. apply elem_of_app in Hk as [Hk|Hk].
        -- by apply (Hmin k d').
        -- apply list_elem_of_singleton in Hk as ->. congruence.
Qed.

Lemma scan_min_spec dist l :
  scan_spec dist l (scan_min dist l None Infinity).
Proof.
  apply (scan_min_spec_gen dist l [] None Infinity).
  left. split; [done|]. intros k d H. inversion H.
Qed.

(** ** Paths of the graph *)

Lemma walk_ends g s m v p w :
  walk g s m v p w → head p = Some s ∧ last p = Some v.
Proof.
  induction 1 as [|u p w edge _ [IHh IHl]]; [done|].
  split; [| apply last_snoc].
  destruct p; [done | exact IHh].
Qed.

Lemma walk_keys g s m v p w :
  walk g s m v p w → ∀ x, x ∈ p → x ∈ Map_keys (nodes g).
Proof.
  induction 1 as [|u p w edge _ IH]; intros x Hx.
  - by apply list_elem_of_singleton in Hx as ->.
  - apply elem_of_app in Hx as [Hx|Hx]; [by apply IH|].
    by apply list_elem_of_singleton in Hx as ->.
Qed.

Lemma walk_end_key g s m v p w :
  walk g s m v p w → v ∈ Map_keys (nodes g).
Proof. by destruct 1. Qed.

Lemma walk_mode g s m m' v p w :
  walk g s m v p w → ∃ w', walk g s m' v p w'.
Proof.
  induction 1 as [|u p w edge _ [w' IH]].
  - exists 0. by constructor.
  - exists (w' + weight m' edge). by eapply walk_step.
Qed.

(** Consecutive nodes of a walk are joined by a stored edge. *)
Lemma walk_hops g s m v p w :
  walk g s m v p w →
  ∀ i a b, p !! i = Some a → p !! S i = Some b →
    ∃ edge, edge ∈ neighbors g a ∧ edge_to edge = b.
Proof.
  induction 1 as [|u p w edge Hw IH He Hk]; intros i a b Ha Hb.
  - destruct i; done.
  - destruct (decide (S i < length p)%nat) as [Hlt|Hge].
    + rewrite lookup_app_l in Ha by lia. rewrite lookup_app_l in Hb by lia.
      by apply (IH i).
    + assert (S i = length p) as Hi.
      { apply lookup_lt_Some in Hb. rewrite length_app in Hb. simpl in Hb. lia. }
      rewrite lookup_app_l in Ha by lia.
      rewrite Hi, list_lookup_middle in Hb by done. injection Hb as <-.
      apply walk_ends in Hw as [_ Hl].
      rewrite last_lookup in Hl. rewrite <- Hi in Hl. simpl in Hl.
      rewrite Ha in Hl. injection Hl as ->. eauto.
Qed.

Lemma chain_ext prev prev' s v p :
  chain prev s v p →
  (∀ x, x ∈ p → prev' !! x = prev !! x) →
  chain prev' s v p.
Proof.
  induction 1 as [Hs|u v p Hv Hc IH]; intros Hext.
  - constructor. rewrite Hext; [done | by left].
  - apply (chain_step _ _ u).
    + rewrite Hext; [done | set_solver].
    + apply IH. intros x Hx. apply Hext. set_solver.
Qed.

(** The walk back returns the chain, given one unit of fuel per node. *)
Lemma reconstruct_chain prev s v p :
  chain prev s v p →
  ∀ fuel acc, (length p ≤ fuel)%nat →
    reconstruct fuel prev v acc = Normal (p ++ acc).
Proof.
  induction 1 as [Hs|u v p Hv Hc IH]; intros fuel acc Hf.
  - destruct fuel; simpl in *; [lia|]. by rewrite Hs.
  - rewrite length_app in Hf. simpl in Hf.
    destruct fuel; simpl; [lia|]. rewrite Hv.
    rewrite IH by lia. by rewrite <- app_assoc.
Qed.

Lemma walk_start_key g s m v p w :
  walk g s m v p w → s ∈ Map_keys (nodes g).
Proof. by induction 1. Qed.

Lemma walk_nonempty g s m v p w : walk g s m v p w → p ≠ [].
Proof. destruct 1; [done | by destruct p]. Qed.

Lemma walk_single_inv g s m v x w :
  walk g s m v [x] w → x = s ∧ v = s ∧ w = 0.
Proof.
  inversion 1 as [|u p w' edge Hw He Hk Hv Hp Hwt]; [done|].
  destruct p as [|y p]; [by apply walk_nonempty in Hw|].
  destruct p; done.
Qed.

Lemma walk_snoc_inv g s m v p x w :
  p ≠ [] → walk g s m v (p ++ [x]) w →
  ∃ u w' edge, walk g s m u p w' ∧ edge ∈ neighbors g u ∧
    edge_to edge = x ∧ v = x ∧ w = w' + weight m edge.
Proof.
  intros Hne. inversion 1 as [|u p' w' edge Hw He Hk Hv Hp Hwt].
  - by destruct p as [|? []].
  - apply app_inj_tail in Hp as [-> <-]. exists u, w', edge. done.
Qed.

(** ** The invariant of the search *)

Section SearchInvariant.
Variable g : Graph.
Variable startId : string.
Variable optimizeFor : OptimizeFor.

Local Abbreviation keys := (Map_keys (nodes g)).
Local Abbreviation Inv := (Inv g startId optimizeFor).
Local Abbreviation RelaxedBut := (RelaxedBut g optimizeFor).
Local Abbreviation Relaxed := (Relaxed g optimizeFor).
Local Abbreviation Final := (Final g startId optimizeFor).

Lemma Inv_init : startId ∈ keys → Inv (init_state g startId).
Proof.
  intros Hs.
  pose proof (init_unvisited g startId) as (Hnd & Hun & _).
  split.
  - intros k. rewrite init_distances.
    destruct (decide (k = startId)) as [->|]; [by split|].
    destruct (decide (k ∈ keys)); split; try done; by intros [].
  - intros k. rewrite init_previous.
    destruct (decide (k ∈ keys)); split; try done; by intros [].
  - done.
  - intros k. rewrite init_visited, Hun. split.
    + intros Hk. split; [done | apply not_elem_of_empty].
    + by intros [Hk _].
  - rewrite init_distances. by rewrite decide_True.
  - rewrite init_previous. by rewrite decide_True.
  - intros _ k d Hne. rewrite init_distances, decide_False by done.
    destruct (decide (k ∈ keys)); done.
  - intros v u. rewrite init_previous. destruct (decide (v ∈ keys)); done.
  - intros v d Hne. rewrite init_distances, decide_False by done.
    destruct (decide (v ∈ keys)); done.
  - intros v. rewrite init_distances, init_previous.
    destruct (decide (v = startId)) as [->|]; [done|].
    destruct (decide (v ∈ keys)); done.
  - intros v. rewrite init_visited. set_solver.
  - intros _ v p w d. rewrite init_visited. set_solver.
Qed.

Lemma Relaxed_init : Relaxed (init_state g startId).
Proof. intros u edge. rewrite init_visited. set_solver. Qed.

(** A walk costs at least the distance of its end if that is visited, and
    at least the distance of some unvisited node otherwise. *)
Lemma walk_lower_bound st :
  Inv st → Relaxed st → nonneg_weights g optimizeFor →
  ∀ v p w, walk g startId optimizeFor v p w →
    v ∉ visited st →
    ∃ y dy, y ∈ unvisited st ∧ distances st !! y = Some (Fin dy) ∧ dy <= w.
Proof.
  intros HI HR Hnn v p w Hw. induction Hw as [Hs|u p w edge Hw IH He Hk].
  - intros Hv. exists startId, 0. split_and!.
    + by apply (inv_unvisited st HI).
    + apply (inv_start_dist st HI).
    + lra.
  - intros Hv. pose proof (Hnn u edge He) as Hpos.
    destruct (decide (u ∈ visited st)) as [Hu|Hu].
    + destruct (HR u edge Hu He Hk Hv) as (du & dt & Hdu & Hdt & Hle).
      exists (edge_to edge), dt. split_and!.
      * by apply (inv_unvisited st HI).
      * done.
      * pose proof (inv_opt st HI Hnn u p w du Hu Hw Hdu). lra.
    + destruct (IH Hu) as (y & dy & Hy & Hdy & Hle).
      exists y, dy. split_and!; [done | done | lra].
Qed.

(** Marking the node found by the scan as visited. *)
Lemma Inv_visit st c d :
  Inv st → Relaxed st →
  scan_min (distances st) (unvisited st) None Infinity = (Some c, Fin d) →
  Inv (visit c st) ∧ RelaxedBut c [] (visit c st).
Proof.
  intros HI HR Hscan.
  pose proof (scan_min_spec (distances st) (unvisited st)) as Hspec.
  rewrite Hscan in Hspec.
  destruct Hspec as [[? _]|(c' & d' & Heq & Hc & Hdc & Hmin)]; [done|].
  injection Heq as <- <-.
  apply (inv_unvisited st HI) in Hc as Hc'. destruct Hc' as [Hck Hcv].
  assert (c ≠ startId → startId ∈ visited st) as Hsv.
  { intros Hne. destruct (decide (startId ∈ visited st)) as [|Hn]; [done|].
    by destruct (inv_fresh st HI Hn c d Hne). }
  split; [split; simpl|].
  - apply (inv_dist_dom st HI).
  - apply (inv_prev_dom st HI).
  - apply Set_delete_NoDup, (inv_unvisited_NoDup st HI).
  - intros k.
    rewrite Set_delete_elem, (inv_unvisited st HI), elem_of_union,
      elem_of_singleton.
    tauto.
  - apply (inv_start_dist st HI).
  - apply (inv_start_prev st HI).
  - intros Hn. apply (inv_fresh st HI).
    intros Hs. apply Hn, elem_of_union. by right.
  - intros v u Hp. destruct (inv_prev st HI v u Hp) as [Hu Hrest].
    split; [apply elem_of_union; by right | done].
  - apply (inv_finite_prev st HI).
  - apply (inv_inf_prev st HI).
  - intros v Hv. apply elem_of_union in Hv as [Hv|Hv].
    + apply elem_of_singleton in Hv as ->.
      destruct (decide (c = startId)) as [->|Hne].
      * exists [startId], 0. split_and!.
        -- constructor. apply (inv_start_prev st HI).
        -- by constructor.
        -- apply (inv_start_dist st HI).
        -- intros x ->%list_elem_of_singleton.
           apply elem_of_union. left. by apply elem_of_singleton.
        -- apply NoDup_singleton.
      * destruct (inv_finite_prev st HI c d Hne Hdc) as [u Hu].
        destruct (inv_prev st HI c u Hu)
          as (Huv & edge & du & He & Hto & Hdu & Hdv).
        destruct (inv_visited st HI u Huv)
          as (p & du' & Hch & Hw & Hdu' & Hp & Hnd).
        rewrite Hdu in Hdu'. injection Hdu' as <-.
        exists (p ++ [c]), (du + weight optimizeFor edge). split_and!.
        -- by apply (chain_step _ _ u).
        -- rewrite <- Hto. eapply walk_step; [done | done | by rewrite Hto].
        -- done.
        -- intros x [Hx| ->%list_elem_of_singleton]%elem_of_app;
             apply elem_of_union;
             [right; by apply Hp | left; by apply elem_of_singleton].
        -- apply NoDup_app. split_and!; [done | | apply NoDup_singleton].
           intros x Hx ->%list_elem_of_singleton. by apply Hcv, Hp.
    + destruct (inv_visited st HI v Hv) as (p & dv & Hch & Hw & Hdv & Hp & Hnd).
      exists p, dv. split_and!; try done.
      intros x Hx. apply elem_of_union. right. by apply Hp.
  - intros Hnn v p w dv Hv Hw Hdv. apply elem_of_union in Hv as [Hv|Hv].
    + apply elem_of_singleton in Hv as ->.
      destruct (walk_lower_bound st HI HR Hnn c p w Hw Hcv)
        as (y & dy & Hy & Hdy & Hle).
      rewrite Hdc in Hdv. injection Hdv as <-.
      specialize (Hmin y dy Hy Hdy). lra.
    + by apply (inv_opt st HI Hnn v p w dv).
  - intros u edge Hu He Hor Hk Hv. simpl in *.
    destruct Hor as [Hne|Hin]; [|by apply elem_of_nil in Hin].
    apply (HR u edge); [| done | done |].
    + by apply elem_of_union in Hu as [Hu%elem_of_singleton|Hu].
    + intros Hin. apply Hv, elem_of_union. by right.
Qed.

Lemma relax_visited m c st edge : visited (relax m c st edge) = visited st.
Proof.
  unfold relax. repeat case_match; done.
Qed.

Lemma relax_unvisited m c st edge :
  unvisited (relax m c st edge) = unvisited st.
Proof.
  unfold relax. repeat case_match; done.
Qed.

(** The three outcomes of relaxing an edge. *)
Lemma relax_cases c st edge :
  relax optimizeFor c st edge = st ∨
  ∃ dc dt,
    (edge_to edge ∉ visited st) ∧
    distances st !! c = Some (Fin dc) ∧
    distances st !! (edge_to edge) = Some dt ∧
    number_lt (Fin (dc + weight optimizeFor edge)) dt = true ∧
    relax optimizeFor c st edge =
      {| distances :=
           <[edge_to edge := Fin (dc + weight optimizeFor edge)]>
             (distances st);
         previous := <[edge_to edge := Some c]> (previous st);
         visited := visited st;
         unvisited := unvisited st |}.
Proof.
  unfold relax. destruct (decide (edge_to edge ∈ visited st)); [by left|].
  destruct (distances st !! c) as [[dc|]|] eqn:Hc; try by left.
  - destruct (distances st !! (edge_to edge)) as [dt|] eqn:Ht; [|by left].
    cbn [number_add].
    destruct (number_lt (Fin (dc + weight optimizeFor edge)) dt) eqn:Hlt;
      [|by left].
    right. exists dc, dt. done.
  - destruct (distances st !! (edge_to edge)); by left.
Qed.

Lemma Inv_relax st c edge :
  Inv st → c ∈ visited st → startId ∈ visited st →
  edge ∈ neighbors g c →
  Inv (relax optimizeFor c st edge).
Proof.
  intros HI Hc Hs He.
  destruct (relax_cases c st edge)
    as [->|(dc & dt & Hv & Hdc & Hdt & Hlt & ->)]; [done|].
  set (t := edge_to edge) in *.
  assert (t ∈ keys) as Htk by (apply (inv_dist_dom st HI); eauto).
  assert (t ≠ startId) as Hts by (intros ->; done).
  assert (t ≠ c) as Htc by (intros ->; done).
  split; simpl.
  - intros k. rewrite lookup_insert. case_decide as Hk.
    + subst k. split; eauto.
    + apply (inv_dist_dom st HI).
  - intros k. rewrite lookup_insert. case_decide as Hk.
    + subst k. split; eauto.
    + apply (inv_prev_dom st HI).
  - apply (inv_unvisited_NoDup st HI).
  - apply (inv_unvisited st HI).
  - rewrite lookup_insert_ne by done. apply (inv_start_dist st HI).
  - rewrite lookup_insert_ne by done. apply (inv_start_prev st HI).
  - done.
  - intros v u. rewrite lookup_insert. case_decide as Hk.
    + subst v. intros [= <-]. split; [done|].
      exists edge, dc. rewrite lookup_insert_ne, lookup_insert_eq by done.
      done.
    + intros Hp. destruct (inv_prev st HI v u Hp)
        as (Hu & e' & du & He' & Hto & Hdu & Hdv).
      split; [done|]. exists e', du.
      rewrite !lookup_insert_ne; [done | done | by intros ->].
  - intros v d Hne. rewrite !lookup_insert. case_decide; [eauto|].
    apply (inv_finite_prev st HI v d Hne).
  - intros v. rewrite !lookup_insert. case_decide; [done|].
    apply (inv_inf_prev st HI v).
  - intros v Hvv.
    destruct (inv_visited st HI v Hvv) as (p & d & Hch & Hw & Hd & Hp & Hnd).
    exists p, d. split_and!; try done.
    + apply (chain_ext (previous st)); [done|].
      intros x Hx. apply lookup_insert_ne. intros <-. by apply Hv, Hp.
    + rewrite lookup_insert_ne; [done | by intros <-].
  - intros Hnn v p w d Hvv Hw. rewrite lookup_insert_ne by (by intros <-).
    apply (inv_opt st HI Hnn v p w d Hvv Hw).
Qed.

Lemma relax_eq c st edge dc dt :
  edge_to edge ∉ visited st →
  distances st !! c = Some (Fin dc) →
  distances st !! (edge_to edge) = Some dt →
  relax optimizeFor c st edge =
    if number_lt (Fin (dc + weight optimizeFor edge)) dt
    then {| distances :=
              <[edge_to edge := Fin (dc + weight optimizeFor edge)]>
                (distances st);
            previous := <[edge_to edge := Some c]> (previous st);
            visited := visited st;
            unvisited := unvisited st |}
    else st.
Proof.
  intros Hv Hc Ht. unfold relax. rewrite decide_False by done.
  by rewrite Hc, Ht.
Qed.

Lemma relax_skip c st edge :
  edge_to edge ∈ visited st ∨ distances st !! (edge_to edge) = None →
  relax optimizeFor c st edge = st.
Proof.
  intros [Hv|Hn]; unfold relax.
  - by rewrite decide_True.
  - destruct (decide (edge_to edge ∈ visited st)); [done|].
    rewrite Hn. by destruct (distances st !! c).
Qed.

Lemma RelaxedBut_relax st c done edge :
  Inv st → c ∈ visited st → edge ∈ neighbors g c →
  RelaxedBut c done st →
  RelaxedBut c (done ++ [edge]) (relax optimizeFor c st edge).
Proof.
  intros HI Hc He HR u e' Hu He' Hor Hk Hv.
  rewrite relax_visited in Hu, Hv.
  destruct (inv_visited st HI c Hc) as (_ & dc & _ & _ & Hdc & _).
  assert ((u ≠ c ∨ e' ∈ done) ∨ (u = c ∧ e' = edge)) as Hscope.
  { destruct Hor as [Hne|Hin]; [by left; left|].
    apply elem_of_app in Hin as [Hin| ->%list_elem_of_singleton];
      [by left; right|].
    destruct (decide (u = c)); [by right | by left; left]. }
  clear Hor.
  assert (∀ x, x ∈ visited st → x ≠ edge_to edge ∨ edge_to edge ∈ visited st)
    as Hvis.
  { intros x Hx. destruct (decide (x = edge_to edge)) as [->|]; eauto. }
  destruct (decide (edge_to edge ∈ visited st)) as [Htv|Htv].
  { rewrite relax_skip by (by left).
    destruct Hscope as [Hold|[-> ->]]; [by apply HR | done]. }
  destruct (distances st !! (edge_to edge)) as [dt|] eqn:Hdt; cycle 1.
  { rewrite relax_skip by (by right).
    destruct Hscope as [Hold|[-> ->]]; [by apply HR|].
    apply (inv_dist_dom st HI) in Hk. rewrite Hdt in Hk. by destruct Hk. }
  rewrite (relax_eq c st edge dc dt) by done.
  destruct (number_lt (Fin (dc + weight optimizeFor edge)) dt) eqn:Hlt; simpl.
  - assert (u ≠ edge_to edge) as Hut by (intros ->; done).
    rewrite lookup_insert_ne by done.
    destruct Hscope as [Hold|[-> ->]].
    + destruct (HR u e' Hu He' Hold Hk Hv) as (du & dt' & Hdu & Hdt' & Hle).
      rewrite lookup_insert. case_decide as Heq.
      * exists du, (dc + weight optimizeFor edge). split_and!; try done.
        rewrite <- Heq, Hdt in Hdt'. injection Hdt' as ->.
        apply number_lt_Fin in Hlt. lra.
      * exists du, dt'. done.
    + rewrite lookup_insert_eq.
      exists dc, (dc + weight optimizeFor edge). split_and!; try done. lra.
  - destruct Hscope as [Hold|[-> ->]]; [by apply HR|].
    destruct dt as [qt|]; [|done].
    apply number_lt_Fin_false in Hlt. exists dc, qt. done.
Qed.

Lemma relax_fold c todo :
  ∀ st done,
    Inv st → c ∈ visited st → startId ∈ visited st →
    (∀ e, e ∈ todo → e ∈ neighbors g c) →
    RelaxedBut c done st →
    let st' := foldl (relax optimizeFor c) st todo in
    Inv st' ∧ RelaxedBut c (done ++ todo) st' ∧
    visited st' = visited st ∧ unvisited st' = unvisited st.
Proof.
  induction todo as [|e todo IH]; intros st done HI Hc Hs Hin HR; simpl.
  - by rewrite app_nil_r.
  - assert (e ∈ neighbors g c) as He by (apply Hin; by left).
    destruct (IH (relax optimizeFor c st e) (done ++ [e]))
      as (HI' & HR' & Hv' & Hu').
    + by apply Inv_relax.
    + by rewrite relax_visited.
    + by rewrite relax_visited.
    + intros e' He'. apply Hin. by right.
    + by apply RelaxedBut_relax.
    + rewrite <- app_assoc in HR'. simpl in HR'.
      rewrite relax_visited in Hv'. rewrite relax_unvisited in Hu'. done.
Qed.

Lemma search_loop_eq fuel endId st :
  search_loop fuel g endId optimizeFor st =
  match unvisited st with
  | [] => Normal st
  | _ :: _ =>
      match fuel with
      | O => OutOfFuel
      | S fuel' =>
          match scan_min (distances st) (unvisited st) None Infinity with
          | (Some currentNode, Fin _) =>
              let st1 := visit currentNode st in
              if decide (currentNode = endId) then Normal st1
              else
                search_loop fuel' g endId optimizeFor
                  (foldl (relax optimizeFor currentNode) st1
                     (neighbors g currentNode))
          | _ => Normal st
          end
      end
  end.
Proof. by destruct fuel. Qed.

Lemma search_loop_spec endId fuel :
  ∀ st, (length (unvisited st) ≤ fuel)%nat → Inv st → Relaxed st →
    ∃ st', search_loop fuel g endId optimizeFor st = Normal st' ∧
           Final endId st'.
Proof.
  induction fuel as [|fuel IH]; intros st Hlen HI HR;
    rewrite search_loop_eq.
  - destruct (unvisited st) eqn:Hun; [|simpl in Hlen; lia].
    exists st. split; [done|]. split; [done|]. right. split; [done|].
    intros k d Hk. rewrite Hun in Hk. by apply elem_of_nil in Hk.
  - pose proof (scan_min_spec (distances st) (unvisited st)) as Hspec.
    destruct (scan_min (distances st) (unvisited st) None Infinity)
      as [cur minD] eqn:Hscan.
    destruct Hspec as [[Heq Hno]|(c & d & Heq & Hc & Hdc & Hmin)];
      injection Heq as -> ->.
    { exists st. split; [by destruct (unvisited st)|].
      split; [done|]. right. split; [done|]. intros k d Hk. by apply Hno. }
    destruct (Inv_visit st c d HI HR Hscan) as [HI1 HR1].
    destruct (unvisited st) as [|x l] eqn:Hun; [by apply elem_of_nil in Hc|].
    simpl. destruct (decide (c = endId)) as [->|Hne].
    + exists (visit endId st). split; [done|]. split; [done|].
      left. apply elem_of_union. left. by apply elem_of_singleton.
    + assert (startId ∈ visited (visit c st)) as Hs1.
      { apply elem_of_union.
        destruct (decide (c = startId)) as [->|Hcs];
          [left; by apply elem_of_singleton|].
        destruct (decide (startId ∈ visited st)) as [|Hn]; [by right|].
        by destruct (inv_fresh st HI Hn c d Hcs). }
      destruct (relax_fold c (neighbors g c) (visit c st) [])
        as (HI2 & HR2 & Hv2 & Hu2); try done.
      { apply elem_of_union. left. by apply elem_of_singleton. }
      apply IH.
      * rewrite Hu2. cbn [visit unvisited]. rewrite <- Hun in Hc, Hlen.
        pose proof (Set_delete_length c (unvisited st) Hc). lia.
      * done.
      * intros u edge Hu He. apply HR2; [done | done |].
        destruct (decide (u = c)) as [->|]; [by right | by left].
Qed.

Lemma walk_visited endId st :
  Inv st → Relaxed st →
  (∀ k d, k ∈ unvisited st → distances st !! k ≠ Some (Fin d)) →
  ∀ p w, walk g startId optimizeFor endId p w → endId ∈ visited st.
Proof.
  intros HI HR Hno p w Hw. induction Hw as [Hs|u p w edge Hw IH He Hk].
  - destruct (decide (startId ∈ visited st)) as [|Hn]; [done|].
    destruct (Hno startId 0); [|apply (inv_start_dist st HI)].
    by apply (inv_unvisited st HI).
  - destruct (decide (edge_to edge ∈ visited st)) as [|Hn]; [done|].
    destruct (HR u edge IH He Hk Hn) as (du & dt & _ & Hdt & _).
    destruct (Hno (edge_to edge) dt); [|done].
    by apply (inv_unvisited st HI).
Qed.

Lemma Final_reached endId st :
  Final endId st → endId ∈ visited st →
  ∃ p d,
    reconstruct (length (nodes g)) (previous st) endId [] = Normal p ∧
    walk g startId optimizeFor endId p d ∧ NoDup p ∧
    (nonneg_weights g optimizeFor →
     ∀ p' w', walk g startId optimizeFor endId p' w' → d <= w').
Proof.
  intros [HI _] He.
  destruct (inv_visited st HI endId He) as (p & d & Hch & Hw & Hd & Hp & Hnd).
  exists p, d. split_and!.
  - rewrite (reconstruct_chain _ _ _ _ Hch); [by rewrite app_nil_r|].
    replace (length (nodes g)) with (length keys)
      by (unfold Map_keys; apply length_fmap).
    apply submseteq_length, NoDup_submseteq; [done|].
    intros x Hx. by apply (walk_keys _ _ _ _ _ _ Hw).
  - done.
  - done.
  - intros Hnn p' w' Hw'. by apply (inv_opt st HI Hnn endId p' w' d).
Qed.

Lemma Final_unreached endId st :
  Final endId st → endId ∈ keys → endId ∉ visited st →
  reconstruct (length (nodes g)) (previous st) endId [] = Normal [endId] ∧
  endId ≠ startId ∧
  ∀ p w, ¬ walk g startId optimizeFor endId p w.
Proof.
  intros [HI [He|[HR Hno]]] Hk Hv; [done|].
  assert (endId ∈ unvisited st) as Hu by (by apply (inv_unvisited st HI)).
  split_and!.
  - assert (distances st !! endId = Some Infinity) as Hd.
    { apply (inv_dist_dom st HI) in Hk as [[d|] Hd]; [|done].
      by destruct (Hno endId d). }
    apply (inv_inf_prev st HI) in Hd.
    destruct (nodes g) as [|kv l] eqn:Hn.
    + by apply elem_of_nil in Hk.
    + simpl. by rewrite Hd.
  - intros ->. apply (Hno startId 0 Hu), (inv_start_dist st HI).
  - intros p w Hw. by apply Hv, (walk_visited endId st HI HR Hno p w).
Qed.
End SearchInvariant.

(** ** Building the result *)

Lemma path_edges_cons g x y p :
  path_edges g (x :: y :: p) =
  match find_edge g x y with
  | Some edge => edge :: path_edges g (y :: p)
  | None => path_edges g (y :: p)
  end.
Proof. done. Qed.

Lemma build_loop_cons g x y p acc :
  build_loop g (x :: y :: p) acc =
  match Map_get (nodes g) x with
  | None => TypeError
  | Some fromNode =>
      let coords :=
        acc_coordinates acc ++ [(node_lat fromNode, node_lng fromNode)] in
      match find_edge g x y with
      | Some edge =>
          match Map_get (nodes g) y with
          | None => TypeError
          | Some toNode =>
              build_loop g (y :: p)
                {| acc_distance := acc_distance acc + edge_distance edge;
                   acc_time := acc_time acc + effective_time edge;
                   acc_cost := acc_cost acc + full_cost edge;
                   acc_coordinates := coords;
                   acc_segments :=
                     acc_segments acc ++
                     [{| seg_from := fromNode;
                         seg_to := toNode;
                         seg_distance := edge_distance edge;
                         seg_time := effective_time edge;
                         seg_roadType := edge_roadType edge |}] |}
          end
      | None =>
          build_loop g (y :: p)
            {| acc_distance := acc_distance acc;
               acc_time := acc_time acc;
               acc_cost := acc_cost acc;
               acc_coordinates := coords;
               acc_segments := acc_segments acc |}
      end
  end.
Proof. done. Qed.

Lemma build_loop_ok g p :
  (∀ x, x ∈ p → x ∈ Map_keys (nodes g)) →
  ∀ acc, ∃ acc',
    build_loop g p acc = Normal acc' ∧
    acc_distance acc' =
      foldl (λ a e, a + edge_distance e) (acc_distance acc) (path_edges g p) ∧
    acc_time acc' =
      foldl (λ a e, a + effective_time e) (acc_time acc) (path_edges g p) ∧
    acc_cost acc' =
      foldl (λ a e, a + full_cost e) (acc_cost acc) (path_edges g p).
Proof.
  induction p as [|x p IH]; intros Hk acc; [by exists acc|].
  destruct p as [|y p]; [by exists acc|].
  destruct (Map_get_Some (nodes g) x) as [nx Hx]; [apply Hk; by left|].
  destruct (Map_get_Some (nodes g) y) as [ny Hy];
    [apply Hk; right; by left|].
  assert (∀ z, z ∈ y :: p → z ∈ Map_keys (nodes g)) as Hk'
    by (intros z Hz; apply Hk; by right).
  rewrite build_loop_cons, path_edges_cons, Hx.
  destruct (find_edge g x y) as [edge|]; [rewrite Hy|];
    cbv zeta;
    match goal with |- context [build_loop g (y :: p) ?a] =>
      destruct (IH Hk' a) as (acc' & -> & Hd & Ht & Hc) end;
    exists acc'; done.
Qed.

Lemma buildRouteResult_ok g p :
  (∀ x, x ∈ p → x ∈ Map_keys (nodes g)) →
  ∃ r, buildRouteResult g p = Normal r ∧
    path r = p ∧
    totalDistance r = Math_round (sum_by edge_distance (path_edges g p)) ∧
    totalTime r = Math_round (sum_by effective_time (path_edges g p)) ∧
    totalCost r = Math_round (sum_by full_cost (path_edges g p)).
Proof.
  intros Hk. unfold buildRouteResult.
  destruct (build_loop_ok g p Hk
    {| acc_distance := 0; acc_time := 0; acc_cost := 0;
       acc_coordinates := []; acc_segments := [] |})
    as (acc & -> & Hd & Ht & Hc).
  cbn [mbind Completion_bind].
  destruct (last p) as [lastId|] eqn:Hl.
  - destruct (Map_get_Some (nodes g) lastId) as [n ->].
    { apply Hk. apply last_Some in Hl as [l' ->]. set_solver. }
    eexists. split; [done|]. cbn [path totalDistance totalTime totalCost].
    by rewrite Hd, Ht, Hc.
  - eexists. split; [done|]. cbn [path totalDistance totalTime totalCost].
    by rewrite Hd, Ht, Hc.
Qed.

Lemma find_edge_Some g a b :
  (∃ edge, edge ∈ neighbors g a ∧ edge_to edge = b) →
  ∃ edge, find_edge g a b = Some edge ∧
          edge ∈ neighbors g a ∧ edge_to edge = b.
Proof.
  intros (e0 & He0 & Hb). unfold find_edge.
  destruct (List.find (λ e, bool_decide (edge_to e = b)) (neighbors g a))
    as [edge|] eqn:Hf.
  - apply find_some in Hf as [Hin Hdec]. exists edge.
    split_and!; [done | by apply list_elem_of_In | by apply bool_decide_eq_true in Hdec].
  - assert (In e0 (neighbors g a)) as Hin by (by apply list_elem_of_In).
    apply (find_none _ _ Hf e0) in Hin.
    by apply bool_decide_eq_false in Hin.
Qed.


Lemma Math_round_nearest (x : Q) :
  ∃ z, Math_round x = inject_Z z ∧ nearest_integer z x.
Proof.
  exists (Qfloor (x + (1 # 2))). split; [done|]. split.
  - apply Qfloor_le.
  - pose proof (Qlt_floor (x + (1 # 2))) as H.
    rewrite inject_Z_plus in H. exact H.
Qed.

(** ** The result of [findShortestPath] *)

Lemma findShortestPath_spec g s e m :
  s ∈ Map_keys (nodes g) → e ∈ Map_keys (nodes g) →
  (∃ r d, findShortestPath g s e m = Normal (Some r) ∧
     walk g s m e (path r) d ∧ NoDup (path r) ∧
     (nonneg_weights g m → ∀ p' w', walk g s m e p' w' → d <= w') ∧
     totalDistance r =
       Math_round (sum_by edge_distance (path_edges g (path r))) ∧
     totalTime r =
       Math_round (sum_by effective_time (path_edges g (path r))) ∧
     totalCost r =
       Math_round (sum_by full_cost (path_edges g (path r)))) ∨
  (findShortestPath g s e m = Normal None ∧ ∀ p w, ¬ walk g s m e p w).
Proof.
  intros Hs He. unfold findShortestPath, findShortestPath_fuel.
  apply Map_has_true in Hs as Hs', He as He'. rewrite Hs', He'. simpl.
  destruct (search_loop_spec g s m e (length (nodes g)) (init_state g s))
    as (st & -> & HF).
  { apply init_unvisited. }
  { by apply Inv_init. }
  { apply Relaxed_init. }
  cbn [mbind Completion_bind].
  destruct (decide (e ∈ visited st)) as [Hv|Hv].
  - destruct (Final_reached g s m e st HF Hv)
      as (p & d & -> & Hw & Hnd & Hopt).
    destruct (buildRouteResult_ok g p (walk_keys _ _ _ _ _ _ Hw))
      as (r & Hr & Hp & Hd & Ht & Hc).
    destruct (walk_ends _ _ _ _ _ _ Hw) as [Hh _].
    cbn [mbind Completion_bind].
    rewrite decide_True by done. rewrite Hr. cbn [mbind Completion_bind].
    left. exists r, d. rewrite Hp. done.
  - destruct (Final_unreached g s m e st HF He Hv) as (-> & Hne & Hno).
    cbn [mbind Completion_bind].
    rewrite decide_False by (simpl; congruence).
    right. done.
Qed.

Lemma search_loop_mono g e m fuel :
  ∀ st st', search_loop fuel g e m st = Normal st' →
    ∀ fuel', (fuel ≤ fuel')%nat → search_loop fuel' g e m st = Normal st'.
Proof.
  induction fuel as [|fuel IH]; intros st st' H fuel' Hle;
    rewrite search_loop_eq in H |- *;
    destruct (unvisited st); try done.
  destruct fuel' as [|fuel']; [lia|].
  destruct (scan_min (distances st) (s :: l) None Infinity) as [[c|] [d|]];
    try done.
  cbv zeta in *. destruct (decide (c = e)); [done|].
  apply (IH _ _ H). lia.
Qed.

Lemma reconstruct_mono prev fuel :
  ∀ cur acc p, reconstruct fuel prev cur acc = Normal p →
    ∀ fuel', (fuel ≤ fuel')%nat → reconstruct fuel' prev cur acc = Normal p.
Proof.
  induction fuel as [|fuel IH]; intros cur acc p H fuel' Hle; [done|].
  destruct fuel' as [|fuel']; [lia|]. simpl in *.
  destruct (prev !! cur) as [[u|]|]; try done.
  apply (IH _ _ _ H). lia.
Qed.

Lemma findShortestPath_fuel_mono g s e m fuel fuel' res :
  findShortestPath_fuel fuel g s e m = Normal res →
  (fuel ≤ fuel')%nat →
  findShortestPath_fuel fuel' g s e m = Normal res.
Proof.
  unfold findShortestPath_fuel. intros H Hle.
  destruct (negb (Map_has (nodes g) s) || negb (Map_has (nodes g) e));
    [done|].
  destruct (search_loop fuel g e m (init_state g s)) as [st| |] eqn:Hl;
    try done.
  rewrite (search_loop_mono _ _ _ _ _ _ Hl fuel' Hle).
  cbn [mbind Completion_bind] in *.
  destruct (reconstruct fuel (previous st) e []) as [p| |] eqn:Hr; try done.
  by rewrite (reconstruct_mono _ _ _ _ _ Hr fuel' Hle).
Qed.

(** [findShortestPath] always returns, and more fuel than one unit per
    stored node changes nothing. *)
Lemma findShortestPath_total g s e m :
  ∃ res, findShortestPath g s e m = Normal res.
Proof.
  destruct (Map_has (nodes g) s) eqn:Hs; cycle 1.
  { exists None. unfold findShortestPath, findShortestPath_fuel.
    by rewrite Hs. }
  destruct (Map_has (nodes g) e) eqn:He; cycle 1.
  { exists None. unfold findShortestPath, findShortestPath_fuel.
    by rewrite Hs, He. }
  apply Map_has_true in Hs, He.
  destruct (findShortestPath_spec g s e m Hs He)
    as [(r & d & -> & _)|[-> _]]; eauto.
Qed.

Lemma findShortestPath_fuel_enough g s e m fuel :
  (length (nodes g) ≤ fuel)%nat →
  findShortestPath_fuel fuel g s e m = findShortestPath g s e m.
Proof.
  intros Hle. destruct (findShortestPath_total g s e m) as [res Hres].
  rewrite Hres. by apply (findShortestPath_fuel_mono g s e m _ fuel res Hres).
Qed.

(** A result other than [null] means that both ids passed the guard. *)
Lemma findShortestPath_Some_keys g s e m r :
  findShortestPath g s e m = Normal (Some r) →
  s ∈ Map_keys (nodes g) ∧ e ∈ Map_keys (nodes g).
Proof.
  unfold findShortestPath, findShortestPath_fuel. intros H.
  destruct (Map_has (nodes g) s) eqn:Hs; [|done].
  destruct (Map_has (nodes g) e) eqn:He; [|done].
  split; by apply Map_has_true.
Qed.

(** The result is [null] exactly when no path joins the two ids. *)
Lemma findShortestPath_reachable g s e m res :
  findShortestPath g s e m = Normal res →
  is_Some res ↔ ∃ p w, walk g s m e p w.
Proof.
  intros H. destruct (Map_has (nodes g) s) eqn:Hs; cycle 1.
  { unfold findShortestPath, findShortestPath_fuel in H. rewrite Hs in H.
    injection H as <-. split; [by intros []|].
    intros (p & w & Hw). apply walk_start_key, Map_has_true in Hw.
    congruence. }
  destruct (Map_has (nodes g) e) eqn:He; cycle 1.
  { unfold findShortestPath, findShortestPath_fuel in H.
    rewrite Hs, He in H. injection H as <-. split; [by intros []|].
    intros (p & w & Hw). apply walk_end_key, Map_has_true in Hw.
    congruence. }
  apply Map_has_true in Hs, He.
  destruct (findShortestPath_spec g s e m Hs He)
    as [(r & d & Hr & Hw & _)|[Hr Hno]]; rewrite Hr in H; injection H as <-.
  - split; eauto.
  - split; [by intros []|]. intros (p & w & Hw). by destruct (Hno p w).
Qed.

Lemma nonneg_weightsb_sound g m :
  nonneg_weightsb g m = true → nonneg_weights g m.
Proof.
  unfold nonneg_weightsb, nonneg_weights, neighbors.
  intros H u edge He. rewrite forallb_forall in H.
  destruct (edges g !! u) as [l|] eqn:Hu; [|by apply elem_of_nil in He].
  simpl in He. apply elem_of_map_to_list, list_elem_of_In in Hu.
  specialize (H _ Hu). simpl in H. rewrite forallb_forall in H.
  apply Qle_bool_iff, H. by apply list_elem_of_In.
Qed.

Lemma in_search_dist_dom g s m st :
  in_search g s m st →
  ∀ k, is_Some (distances st !! k) → k ∈ Map_keys (nodes g).
Proof.
  induction 1 as [Hs|st c _ IH|st c edge _ IH]; intros k.
  - apply Map_has_true in Hs. rewrite init_distances.
    destruct (decide (k = s)) as [->|]; [done|].
    destruct (decide (k ∈ Map_keys (nodes g))); [done | by intros []].
  - apply IH.
  - destruct (relax_cases m c st edge)
      as [->|(dc & dt & _ & _ & Hdt & _ & ->)]; [apply IH|].
    simpl. rewrite lookup_insert. case_decide as Hk; [|apply IH].
    subst k. intros _. apply IH. eauto.
Qed.

(** ** Dynamic nodes *)

Lemma neighbors_addEdge edge g k :
  neighbors (addEdge edge g) k =
  neighbors g k ++ (if decide (edge_from edge = k) then [edge] else []).
Proof.
  unfold neighbors, addEdge. cbn [edges].
  destruct (edges g !! edge_from edge) as [l|] eqn:Hl;
    rewrite lookup_alter; case_decide as Hk; subst.
  - by rewrite Hl.
  - by rewrite app_nil_r.
  - by rewrite lookup_insert_eq, Hl.
  - rewrite lookup_insert_ne by done. by rewrite app_nil_r.
Qed.

Lemma neighbors_connect newNode l :
  ∀ g k,
    neighbors (foldl (connect newNode) g l) k =
    neighbors g k ++ filter (λ e, edge_from e = k) (synthesized newNode l).
Proof.
  induction l as [|n l IH]; intros g k; simpl.
  - by rewrite app_nil_r.
  - rewrite IH. unfold connect. rewrite !neighbors_addEdge.
    unfold synthesized. cbn [mbind list_bind]. fold (synthesized newNode l).
    cbn [app]. rewrite !filter_cons, <- !app_assoc.
    repeat case_decide; done.
Qed.

Lemma nodes_connect newNode l :
  ∀ g, nodes (foldl (connect newNode) g l) = nodes g.
Proof.
  induction l as [|n l IH]; intros g; simpl; [done|]. by rewrite IH.
Qed.

Lemma symmetricb_sound g : symmetricb g = true → symmetric g.
Proof.
  unfold symmetricb, symmetric. intros H u e He.
  rewrite forallb_forall in H. unfold neighbors in He.
  destruct (edges g !! u) as [l|] eqn:Hu; [|by apply elem_of_nil in He].
  simpl in He. apply elem_of_map_to_list, list_elem_of_In in Hu.
  specialize (H _ Hu). simpl in H. rewrite forallb_forall in H.
  apply list_elem_of_In, H in He. by apply bool_decide_eq_true in He.
Qed.

Lemma keys_matchb_sound g : keys_matchb g = true → keys_match g.
Proof.
  unfold keys_matchb, keys_match. intros H k n Hin.
  rewrite forallb_forall in H. apply list_elem_of_In, H in Hin.
  by apply bool_decide_eq_true in Hin.
Qed.

Lemma seed_keys_match : keys_match initializeIndianRoadNetwork.
Proof. apply keys_matchb_sound. vm_compute. reflexivity. Qed.

Lemma seed_symmetric : symmetric initializeIndianRoadNetwork.
Proof. apply symmetricb_sound. vm_compute. reflexivity. Qed.

Lemma synthesized_elem newNode l e :
  e ∈ synthesized newNode l ↔
  ∃ n, n ∈ l ∧ (e = dynamic_edge newNode n ∨ e = dynamic_edge_back newNode n).
Proof.
  unfold synthesized. rewrite list_elem_of_bind. split.
  - intros (n & He & Hn). exists n. split; [done|].
    apply elem_of_cons in He as [->|He]; [by left|].
    apply list_elem_of_singleton in He as ->. by right.
  - intros (n & Hn & [->| ->]); exists n; split; try done; set_solver.
Qed.

Lemma synthesized_roadType newNode l e :
  e ∈ synthesized newNode l → edge_roadType e = state_highway.
Proof.
  intros (n & _ & [->| ->])%synthesized_elem; done.
Qed.

Lemma insert_nearby_perm x l : insert_nearby x l ≡ₚ x :: l.
Proof.
  induction l as [|y l IH]; simpl; [done|].
  destruct (Qle_bool (near_distance x) (near_distance y)); [done|].
  rewrite IH. apply Permutation_swap.
Qed.

Lemma sort_nearby_perm l : sort_nearby l ≡ₚ l.
Proof.
  induction l as [|x l IH]; simpl; [done|].
  by rewrite insert_nearby_perm, IH.
Qed.

Lemma insert_nearby_sorted x l :
  StronglySorted nearer l → StronglySorted nearer (insert_nearby x l).
Proof.
  induction 1 as [|y l Hs IH Hall]; simpl.
  - repeat constructor.
  - destruct (Qle_bool (near_distance x) (near_distance y)) eqn:Hle.
    + apply Qle_bool_iff in Hle. constructor; [by constructor|].
      constructor; [done|].
      eapply Forall_impl; [exact Hall|]. unfold nearer. intros z Hz. lra.
    + constructor; [done|].
      rewrite insert_nearby_perm. constructor; [|done].
      unfold nearer. destruct (Qlt_le_dec (near_distance x) (near_distance y))
        as [Hlt|Hge]; [|done].
      apply Qlt_le_weak, Qle_bool_iff in Hlt. congruence.
Qed.

Lemma sort_nearby_sorted l : StronglySorted nearer (sort_nearby l).
Proof.
  induction l as [|x l IH]; simpl; [constructor|].
  by apply insert_nearby_sorted.
Qed.

Section DynamicNodeFacts.
Variable hav : Q → Q → Q → Q → Q.

(** The adjacency lists after [addDynamicNode]: the list of the new id
    starts again from empty, and every list gets the synthesized edges
    that leave its node. *)
Lemma neighbors_addDynamicNode node g k :
  neighbors (addDynamicNode hav node g) k =
  (if decide (k = node_id node) then [] else neighbors g k) ++
  filter (λ e, edge_from e = k)
    (synthesized node
       (nearest hav node (Map_set (nodes g) (node_id node) node))).
Proof.
  unfold addDynamicNode, connectToNearestNodes. rewrite neighbors_connect.
  cbn [nodes]. f_equal. unfold neighbors. cbn [edges].
  rewrite lookup_insert. case_decide as Hk; subst.
  - by rewrite decide_True.
  - by rewrite decide_False.
Qed.

Lemma nodes_addDynamicNode node g :
  nodes (addDynamicNode hav node g) = Map_set (nodes g) (node_id node) node.
Proof.
  unfold addDynamicNode, connectToNearestNodes. by rewrite nodes_connect.
Qed.

(** X13. Inserting a node under an id that has no stored outgoing edge
    keeps the adjacency symmetric. *)
Lemma addDynamicNode_fresh_symmetric node g :
  symmetric g → neighbors g (node_id node) = [] →
  symmetric (addDynamicNode hav node g).
Proof.
  intros Hsym Hfresh u e. rewrite !neighbors_addDynamicNode.
  set (added := synthesized node _).
  intros [He|He]%elem_of_app.
  - destruct (decide (u = node_id node)) as [->|Hu];
      [by apply elem_of_nil in He|].
    apply Hsym in He as Hrev. apply elem_of_app. left.
    destruct (decide (edge_to e = node_id node)) as [Hto|Hto]; [|done].
    rewrite Hto, Hfresh in Hrev. by apply elem_of_nil in Hrev.
  - apply list_elem_of_filter in He as [Hfrom He].
    apply elem_of_app. right. apply list_elem_of_filter. split.
    + apply synthesized_elem in He as (n & _ & [->| ->]); done.
    + apply synthesized_elem in He as (n & Hn & [->| ->]);
        apply synthesized_elem; exists n; split; try done; [by right | by left].
Qed.

(** An edge into an id that is not a synthesized one loses its reverse
    when a node is inserted under that id. *)
Lemma addDynamicNode_existing_not_symmetric node g k e0 :
  k ≠ node_id node → e0 ∈ neighbors g k → edge_to e0 = node_id node →
  edge_roadType e0 ≠ state_highway →
  ¬ symmetric (addDynamicNode hav node g).
Proof.
  intros Hk He0 Hto Hroad Hsym. specialize (Hsym k e0).
  rewrite !neighbors_addDynamicNode in Hsym.
  rewrite decide_False in Hsym by done.
  rewrite (decide_True _ _ Hto) in Hsym.
  rewrite app_nil_l in Hsym.
  apply list_elem_of_filter in Hsym as [_ Hin].
  - by apply synthesized_roadType in Hin.
  - apply elem_of_app. by left.
Qed.

(** The candidates are the stored nodes under another id at a distance
    below 100. *)
Lemma nearbyNodes_elem newNode entries n :
  n ∈ nearbyNodes hav newNode entries →
  near_distance n < 100 ∧
  near_distance n =
    hav (node_lat newNode) (node_lng newNode)
      (node_lat (near_node n)) (node_lng (near_node n)) ∧
  ∃ nodeId, (nodeId, near_node n) ∈ entries ∧ nodeId ≠ node_id newNode.
Proof.
  induction entries as [|[k node] entries IH]; simpl.
  - intros H. by apply elem_of_nil in H.
  - destruct (decide (k = node_id newNode)) as [->|Hk].
    + intros (Hd & Hh & k' & Hin & Hne)%IH. split_and!; [done..|].
      exists k'. split; [by right | done].
    + destruct (Qltb _ 100) eqn:Hlt.
      * intros [->|Hn]%elem_of_cons.
        -- apply Qltb_lt in Hlt. split_and!; [done..|].
           exists k. split; [by left | done].
        -- apply IH in Hn as (Hd & Hh & k' & Hin & Hne).
           split_and!; [done..|]. exists k'. split; [by right | done].
      * intros (Hd & Hh & k' & Hin & Hne)%IH. split_and!; [done..|].
        exists k'. split; [by right | done].
Qed.

(** X11. The neighbours that [connectToNearestNodes] chooses: the first
    three candidates in ascending order of distance, all of them when
    there are fewer; every one left out is no nearer than any chosen. *)
Lemma nearest_spec newNode entries :
  let cands := nearbyNodes hav newNode entries in
  let near := nearest hav newNode entries in
  length near = (3 `min` length cands)%nat ∧
  StronglySorted nearer near ∧
  (∀ n, n ∈ near → n ∈ cands ∧ near_distance n < 100) ∧
  ∃ rest, near ++ rest ≡ₚ cands ∧
          ∀ a b, a ∈ near → b ∈ rest → nearer a b.
Proof.
  intros cands near. unfold near, nearest. fold cands.
  pose proof (sort_nearby_perm cands) as Hperm.
  pose proof (sort_nearby_sorted cands) as Hsorted.
  rewrite <- (take_drop 3 (sort_nearby cands)) in Hperm, Hsorted.
  apply StronglySorted_app in Hsorted as (Hcross & Hs1 & _).
  split_and!.
  - rewrite length_take. by rewrite (Permutation_length (sort_nearby_perm cands)).
  - done.
  - intros n Hn.
    assert (n ∈ cands) as Hc by (rewrite <- Hperm; set_solver).
    split; [done|]. by apply nearbyNodes_elem in Hc as [? _].
  - exists (drop 3 (sort_nearby cands)). split; [done|].
    intros a b Ha Hb. by apply Hcross.
Qed.

Lemma synthesized_out newNode l :
  (∀ n, n ∈ l → node_id (near_node n) ≠ node_id newNode) →
  filter (λ e, edge_from e = node_id newNode) (synthesized newNode l) =
  dynamic_edge newNode <$> l.
Proof.
  induction l as [|n l IH]; intros Hne; [done|].
  unfold synthesized. cbn [mbind list_bind]. fold (synthesized newNode l).
  cbn [app]. rewrite !filter_cons.
  rewrite decide_True by done.
  rewrite decide_False by (apply Hne; by left).
  rewrite fmap_cons. f_equal. apply IH. intros n' Hn'. apply Hne. by right.
Qed.

(** In a graph that stores every node under its own id, the chosen
    neighbours have ids other than the id of the new node. *)
Lemma nearest_other_id node g n :
  keys_match g →
  n ∈ nearest hav node (Map_set (nodes g) (node_id node) node) →
  node_id (near_node n) ≠ node_id node.
Proof.
  intros Hkm Hn. unfold nearest in Hn. apply elem_of_take in Hn as (i & Hn & _).
  apply list_elem_of_lookup_2 in Hn. rewrite sort_nearby_perm in Hn.
  apply nearbyNodes_elem in Hn as (_ & _ & k & Hin & Hk).
  apply Map_set_elem in Hin as [[= -> _]|Hin]; [done|].
  by rewrite (Hkm _ _ Hin).
Qed.

(** X12. What [addDynamicNode] does store: the node, and for each chosen
    neighbour an edge to it and an edge back, both a state highway without
    toll, of traffic factor 1, of cost [distance * 8] and of time
    [distance / 60]. *)
Lemma addDynamicNode_connects node g :
  let g' := addDynamicNode hav node g in
  Map_get (nodes g') (node_id node) = Some node ∧
  ∀ n, n ∈ nearest hav node (nodes g') →
    let e := dynamic_edge node n in
    e ∈ neighbors g' (node_id node) ∧
    reverse_edge e ∈ neighbors g' (node_id (near_node n)) ∧
    edge_to e = node_id (near_node n) ∧
    edge_distance e = near_distance n ∧
    edge_roadType e = state_highway ∧
    edge_tollCost e = 0 ∧ edge_trafficFactor e = 1 ∧
    edge_cost e = near_distance n * 8 ∧
    edge_time e = near_distance n / 60.
Proof.
  intros g'. unfold g'. rewrite nodes_addDynamicNode.
  split; [apply Map_get_set_eq|]. intros n Hn.
  set (e := dynamic_edge node n).
  assert (∀ e', e' = dynamic_edge node n ∨ e' = dynamic_edge_back node n →
            e' ∈ neighbors (addDynamicNode hav node g) (edge_from e'))
    as Hstored.
  { intros e' He'. rewrite neighbors_addDynamicNode. apply elem_of_app. right.
    apply list_elem_of_filter. split; [done|].
    apply synthesized_elem. by exists n. }
  split_and!; try done.
  - apply (Hstored e). by left.
  - apply (Hstored (reverse_edge e)). by right.
Qed.

End DynamicNodeFacts.

(** * The totals in binary64 *)






(** On the seed network the two embeddings of the totals give the same
    numbers, for every pair of nodes and every mode: no rounding of a
    sum crosses a half there. *)
Lemma seed_totals_agree : all_totals_agree initializeIndianRoadNetwork = true.
Proof. vm_compute. reflexivity. Qed.

(** * The claims *)

(** Why the minimality of C1 is stated for weights that are not negative,
    as the weights of every state of the router are: with a negative
    cost, which only a graph built by hand can have, the search settles
    a node too early.  In [rebate_graph] the cost search from [a] to [b]
    returns the direct edge of cost 2, and the path through [c] costs
    3 - 5. *)
Lemma negative_weight_counterexample :
  ∃ r,
    findShortestPath rebate_graph "a" "b" cost = Normal (Some r) ∧
    path r = ["a"; "b"] ∧
    walk rebate_graph "a" cost "b" ["a"; "c"; "b"] (0 + (3 + 0) + (-5 + 0)) ∧
    ¬ ∃ w, walk rebate_graph "a" cost "b" (path r) w ∧
           ∀ p' w', walk rebate_graph "a" cost "b" p' w' → w <= w'.
Proof.
  eexists. split; [vm_compute; reflexivity|]. split; [reflexivity|].
  assert (walk rebate_graph "a" cost "b" ["a"; "c"; "b"]
            (0 + (3 + 0) + (-5 + 0))) as Hlight.
  { apply (walk_step rebate_graph "a" cost "c" ["a"; "c"] (0 + (3 + 0))
             (mkEdge "c" "b" 1 1 (-5) city_road 0 1)).
    - apply (walk_step rebate_graph "a" cost "a" ["a"] 0
               (mkEdge "a" "c" 1 1 3 city_road 0 1)).
      + constructor. vm_compute. left.
      + vm_compute. right. left.
      + vm_compute. right. right. left.
    - vm_compute. left.
    - vm_compute. right. left. }
  split; [exact Hlight|]. cbn [path]. intros (w & Hw & Hmin).
  specialize (Hmin _ _ Hlight).
  apply (walk_snoc_inv _ _ _ _ ["a"] "b") in Hw
    as (u & w' & edge & Hw' & He & Hto & _ & ->); [|done].
  apply walk_single_inv in Hw' as (_ & -> & ->).
  vm_compute in He.
  assert (weight cost edge = 2 + 0) as Hwt.
  { inversion He as [|? ? ? He']; subst; [done|].
    inversion He' as [|? ? ? He'']; subst; [done|]. inversion He''. }
  rewrite Hwt in Hmin. vm_compute in Hmin. by apply Hmin.
Qed.







(** C4, the estimated time.  The edge synthesized for a chosen neighbour
    at a positive distance has [time = distance / 60], which is not the
    [distance / 60 * 60] of the claim. *)
Theorem addDynamicNode_edge_time hav node g n :
  n ∈ nearest hav node (nodes (addDynamicNode hav node g)) →
  0 < near_distance n →
  ∃ e, e ∈ neighbors (addDynamicNode hav node g) (node_id node) ∧
       edge_to e = node_id (near_node n) ∧
       edge_distance e = near_distance n ∧
       edge_time e = edge_distance e / 60 ∧
       ¬ edge_time e == edge_distance e / 60 * 60.
Proof.
  intros Hn Hpos. rewrite nodes_addDynamicNode in Hn.
  exists (dynamic_edge node n). split_and!; try done.
  - rewrite neighbors_addDynamicNode, decide_True by done. simpl.
    apply list_elem_of_filter. split; [done|].
    apply synthesized_elem. exists n. split; [done | by left].
  - cbn [dynamic_edge edge_time edge_distance]. intros Heq.
    assert (near_distance n / 60 * 60 == near_distance n) as Hd by field.
    rewrite Hd in Heq.
    assert (near_distance n / 60 == near_distance n * (1 # 60)) as Hd'
      by field.
    rewrite Hd' in Heq. lra.
Qed.

Lemma addDynamicNode_edge_time_witness :
  ∃ n,
    n ∈ nearest flat_distance depot
          (nodes (addDynamicNode flat_distance depot
                    initializeIndianRoadNetwork)) ∧
    0 < near_distance n ∧
    ∃ e, e ∈ neighbors
               (addDynamicNode flat_distance depot
                  initializeIndianRoadNetwork) "depot" ∧
         edge_to e = node_id (near_node n) ∧
         edge_distance e = near_distance n ∧
         edge_time e = edge_distance e / 60 ∧
         ¬ edge_time e == edge_distance e / 60 * 60.
Proof.
  assert (∃ n,
    n ∈ nearest flat_distance depot
          (nodes (addDynamicNode flat_distance depot
                    initializeIndianRoadNetwork)) ∧
    0 < near_distance n) as (n & Hn & Hpos).
  { eexists. split; [vm_compute; left | vm_compute; reflexivity]. }
  exists n. split; [exact Hn|]. split; [exact Hpos|].
  exact (addDynamicNode_edge_time flat_distance depot
           initializeIndianRoadNetwork n Hn Hpos).
Defined.

(** C5. For a stored node [A] and every mode, [findShortestPath A A]
    returns the one-node path [[A]] with the three totals zero. *)
Theorem findShortestPath_same_node g A m :
  Map_has (nodes g) A = true →
  ∃ r, findShortestPath g A A m = Normal (Some r) ∧
       path r = [A] ∧
       totalDistance r = 0 ∧ totalTime r = 0 ∧ totalCost r = 0.
Proof.
  intros HA. apply Map_has_true in HA.
  destruct (findShortestPath_spec g A A m HA HA)
    as [(r & d & Hr & Hw & Hnd & _ & Hd & Ht & Hc)|[_ Hno]]; cycle 1.
  { destruct (Hno [A] 0). by constructor. }
  exists r. split; [done|].
  assert (path r = [A]) as Hp.
  { apply walk_ends in Hw as [Hh Hl].
    destruct (path r) as [|x [|y l]]; simpl in Hh;
      [congruence | congruence |].
    injection Hh as ->.
    apply NoDup_cons in Hnd as [Hnotin _]. destruct Hnotin.
    apply last_Some in Hl as [l' Heq].
    destruct l' as [|a l']; [done|]. injection Heq as _ ->.
    apply elem_of_app. right. by left. }
  rewrite Hd, Ht, Hc, Hp. done.
Qed.

Lemma findShortestPath_same_node_witness :
  ∃ r, findShortestPath initializeIndianRoadNetwork "pune" "pune" time
       = Normal (Some r) ∧
       path r = ["pune"] ∧
       totalDistance r = 0 ∧ totalTime r = 0 ∧ totalCost r = 0.
Proof.
  apply (findShortestPath_same_node initializeIndianRoadNetwork "pune" time).
  reflexivity.
Defined.

(** C6. When [startId] or [endId] is not a key of the node set,
    [findShortestPath] returns [null] without throwing, and this is the
    value it returns for two stored nodes that no path joins. *)
Theorem findShortestPath_unknown_node g s e m :
  Map_has (nodes g) s = false ∨ Map_has (nodes g) e = false →
  findShortestPath g s e m = Normal None ∧
  ∀ s' e',
    Map_has (nodes g) s' = true → Map_has (nodes g) e' = true →
    (∀ p w, ¬ walk g s' m e' p w) →
    findShortestPath g s' e' m = findShortestPath g s e m.
Proof.
  intros H.
  assert (findShortestPath g s e m = Normal None) as Hnull.
  { unfold findShortestPath, findShortestPath_fuel.
    destruct H as [-> | ->]; [done|]. by rewrite orb_true_r. }
  split; [done|]. intros s' e' Hs' He' Hno. rewrite Hnull.
  apply Map_has_true in Hs', He'.
  destruct (findShortestPath_spec g s' e' m Hs' He')
    as [(r & d & _ & Hw & _)|[Hr _]]; [by destruct (Hno _ _ Hw) | done].
Qed.

Lemma findShortestPath_unknown_node_witness :
  Map_has (nodes initializeIndianRoadNetwork) "goa" = false ∧
  findShortestPath initializeIndianRoadNetwork "mumbai" "goa" cost
  = Normal None.
Proof.
  split; [reflexivity|].
  destruct (findShortestPath_unknown_node initializeIndianRoadNetwork
              "mumbai" "goa" cost) as [H _]; [right; reflexivity | exact H].
Defined.



(** C8. Let the graph hold an edge whose [to] is not a key of the node
    set.  [findShortestPath] returns for every pair of ids and every
    mode; relaxing this edge, in any state of the search and from any
    current node, leaves distances and predecessors as they are; and its
    target is on no returned path. *)
Theorem findShortestPath_dead_end g u edge :
  edge ∈ neighbors g u →
  Map_has (nodes g) (edge_to edge) = false →
  ∀ s e m,
    (∃ res, findShortestPath g s e m = Normal res) ∧
    (∀ st c, in_search g s m st → relax m c st edge = st) ∧
    (∀ r, findShortestPath g s e m = Normal (Some r) →
          edge_to edge ∉ path r).
Proof.
  intros _ Hto s e m. apply Map_has_false in Hto. split_and!.
  - apply findShortestPath_total.
  - intros st c Hst. apply relax_skip. right.
    destruct (distances st !! (edge_to edge)) as [d|] eqn:Hd; [|done].
    destruct Hto. apply (in_search_dist_dom g s m st Hst). eauto.
  - intros r Hr Hin. destruct (findShortestPath_Some_keys g s e m r Hr) as [Hs He].
    destruct (findShortestPath_spec g s e m Hs He)
      as [(r' & d & Hr' & Hw & _)|[Hr' _]]; rewrite Hr' in Hr; [|done].
    injection Hr as ->. by apply Hto, (walk_keys _ _ _ _ _ _ Hw).
Qed.

Lemma findShortestPath_dead_end_witness :
  findShortestPath dangling_graph "a" "b" distance
  = Normal (Some {| path := ["a"; "b"]; totalDistance := 1; totalTime := 1;
                    totalCost := 1; coordinates := [(0, 0); (0, 1)];
                    segments :=
                      [{| seg_from := mkNode "a" 0 0 "A" city;
                          seg_to := mkNode "b" 0 1 "B" city;
                          seg_distance := 1; seg_time := 1 * 1;
                          seg_roadType := city_road |}] |}) ∧
  ∀ s e m,
    (∃ res, findShortestPath dangling_graph s e m = Normal res) ∧
    (∀ st c, in_search dangling_graph s m st →
             relax m c st (mkEdge "b" "c" 1 1 1 city_road 0 1) = st) ∧
    (∀ r, findShortestPath dangling_graph s e m = Normal (Some r) →
          "c" ∉ path r).
Proof.
  split; [vm_compute; reflexivity|].
  apply (findShortestPath_dead_end dangling_graph "b"
           (mkEdge "b" "c" 1 1 1 city_road 0 1)).
  - vm_compute. left.
  - reflexivity.
Defined.




(** C10. Inserting a node whose id is already stored replaces the stored
    node; the adjacency list of the id then holds the synthesized edges
    that leave it and none of the edges it held before, and the
    adjacency list of every other node keeps all its edges, those into
    the id among them, in place. *)
Theorem addDynamicNode_existing_id hav node g :
  Map_has (nodes g) (node_id node) = true →
  let g' := addDynamicNode hav node g in
  let added := synthesized node (nearest hav node (nodes g')) in
  Map_get (nodes g') (node_id node) = Some node ∧
  neighbors g' (node_id node) =
    filter (λ e, edge_from e = node_id node) added ∧
  (∀ e, e ∈ neighbors g' (node_id node) → e ∈ added) ∧
  (∀ k, k ≠ node_id node → neighbors g k `prefix_of` neighbors g' k) ∧
  (∀ k e, k ≠ node_id node → e ∈ neighbors g k →
          edge_to e = node_id node → e ∈ neighbors g' k) ∧
  (keys_match g →
   neighbors g' (node_id node) =
     dynamic_edge node <$> nearest hav node (nodes g')).
Proof.
  intros _ g' added. unfold added, g'. rewrite nodes_addDynamicNode.
  assert (∀ k, k ≠ node_id node →
            neighbors g k `prefix_of` neighbors (addDynamicNode hav node g) k)
    as Hpre.
  { intros k Hk. rewrite neighbors_addDynamicNode, decide_False by done.
    by eexists. }
  split_and!.
  - apply Map_get_set_eq.
  - rewrite neighbors_addDynamicNode. by rewrite decide_True.
  - intros e. rewrite neighbors_addDynamicNode, decide_True by done.
    simpl. by intros [_ He]%list_elem_of_filter.
  - done.
  - intros k e Hk He _. destruct (Hpre k Hk) as [l ->]. set_solver.
  - intros Hkm. rewrite neighbors_addDynamicNode, decide_True by done.
    rewrite app_nil_l. apply synthesized_out.
    intros n Hn. by apply (nearest_other_id hav node g n).
Qed.

Lemma addDynamicNode_existing_id_witness :
  Map_has (nodes initializeIndianRoadNetwork) "pune" = true ∧
  keys_match initializeIndianRoadNetwork ∧
  let g' := addDynamicNode flat_distance pune_moved
              initializeIndianRoadNetwork in
  let added := synthesized pune_moved
                 (nearest flat_distance pune_moved (nodes g')) in
  Map_get (nodes g') "pune" = Some pune_moved ∧
  neighbors g' "pune" = filter (λ e, edge_from e = "pune") added ∧
  (∀ e, e ∈ neighbors g' "pune" → e ∈ added) ∧
  (∀ k, k ≠ "pune" →
        neighbors initializeIndianRoadNetwork k `prefix_of` neighbors g' k) ∧
  (∀ k e, k ≠ "pune" → e ∈ neighbors initializeIndianRoadNetwork k →
          edge_to e = "pune" → e ∈ neighbors g' k) ∧
  (keys_match initializeIndianRoadNetwork →
   neighbors g' "pune" =
     dynamic_edge pune_moved <$> nearest flat_distance pune_moved (nodes g')).
Proof.
  split; [reflexivity|]. split; [apply seed_keys_match|].
  exact (addDynamicNode_existing_id flat_distance pune_moved
           initializeIndianRoadNetwork eq_refl).
Defined.

(** * Further properties *)

(** ** The result of [buildRouteResult] *)

Lemma buildRouteResult_path g p r :
  buildRouteResult g p = Normal r → path r = p.
Proof.
  unfold buildRouteResult. intros H.
  destruct (build_loop g p _) as [acc| |]; [|done..].
  cbn [mbind Completion_bind] in H.
  destruct (last p) as [lastId|].
  - destruct (Map_get (nodes g) lastId); [|done].
    cbn [mbind Completion_bind] in H. by injection H as <-.
  - cbn [mbind Completion_bind] in H. by injection H as <-.
Qed.

Lemma findShortestPath_build g s e m r :
  findShortestPath g s e m = Normal (Some r) →
  buildRouteResult g (path r) = Normal r.
Proof.
  unfold findShortestPath, findShortestPath_fuel. intros H.
  destruct (negb (Map_has (nodes g) s) || negb (Map_has (nodes g) e));
    [done|].
  destruct (search_loop _ g e m _) as [st| |]; [|done..].
  cbn [mbind Completion_bind] in H.
  destruct (reconstruct _ (previous st) e []) as [p| |]; [|done..].
  cbn [mbind Completion_bind] in H.
  destruct (decide (head p = Some s)); [|done].
  destruct (buildRouteResult g p) as [r'| |] eqn:Hb; [|done..].
  cbn [mbind Completion_bind] in H. injection H as ->.
  by rewrite (buildRouteResult_path g p r Hb).
Qed.

Lemma removelast_cons2 {A} (x y : A) l :
  removelast (x :: y :: l) = x :: removelast (y :: l).
Proof. done. Qed.

Lemma segments_of_cons n1 n2 ns e es :
  segments_of (n1 :: n2 :: ns) (e :: es) =
  {| seg_from := n1; seg_to := n2; seg_distance := edge_distance e;
     seg_time := effective_time e; seg_roadType := edge_roadType e |}
  :: segments_of (n2 :: ns) es.
Proof. done. Qed.

(** The loop of [buildRouteResult] over a path of stored nodes whose hops
    all have an edge: a coordinate for every node but the last, a segment
    for every hop. *)
Lemma build_loop_trace g p :
  (∀ i a b, p !! i = Some a → p !! S i = Some b →
     ∃ edge, edge ∈ neighbors g a ∧ edge_to edge = b) →
  ∀ ns acc,
    Forall2 (λ id n, Map_get (nodes g) id = Some n) p ns →
    ∃ acc',
      build_loop g p acc = Normal acc' ∧
      acc_coordinates acc' =
        acc_coordinates acc ++ (coordinate <$> removelast ns) ∧
      acc_segments acc' =
        acc_segments acc ++ segments_of ns (path_edges g p).
Proof.
  induction p as [|x p IH]; intros Hh ns acc Hns.
  { apply Forall2_nil_inv_l in Hns as ->. exists acc.
    by rewrite !app_nil_r. }
  apply Forall2_cons_inv_l in Hns as (n & ns' & Hx & Hns & ->).
  destruct p as [|y p].
  { apply Forall2_nil_inv_l in Hns as ->. exists acc.
    by rewrite !app_nil_r. }
  apply Forall2_cons_inv_l in Hns as Hns'.
  destruct Hns' as (n' & ns'' & Hy & Hns'' & ->).
  destruct (find_edge_Some g x y (Hh 0%nat x y eq_refl eq_refl))
    as (e0 & Hf & _).
  rewrite build_loop_cons, path_edges_cons, Hx, Hf, Hy. cbv zeta.
  edestruct (IH (λ j, Hh (S j)) (n' :: ns'')) as (acc' & -> & Hc & Hs).
  { by constructor. }
  exists acc'. split; [done|]. rewrite Hc, Hs. cbn [acc_coordinates acc_segments].
  rewrite removelast_cons2, segments_of_cons, fmap_cons, <- !app_assoc.
  done.
Qed.

Lemma stored_nodes g p :
  (∀ x, x ∈ p → x ∈ Map_keys (nodes g)) →
  ∃ ns, Forall2 (λ id n, Map_get (nodes g) id = Some n) p ns.
Proof.
  induction p as [|x p IH]; intros Hk; [by exists []|].
  destruct (Map_get_Some (nodes g) x) as [n Hn]; [apply Hk; by left|].
  destruct IH as [ns Hns]; [intros y Hy; apply Hk; by right|].
  exists (n :: ns). by constructor.
Qed.

(** ** Routes *)

(** X1. The coordinates of a result are the positions of the nodes of its
    path, in order, and its segments are one per hop, between these nodes
    and with the distance, effective time and road class of the edge that
    is added up. *)
Theorem findShortestPath_coordinates g s e m r :
  findShortestPath g s e m = Normal (Some r) →
  ∃ ns,
    Forall2 (λ id n, getNode g id = Some n) (path r) ns ∧
    coordinates r = coordinate <$> ns ∧
    segments r = segments_of ns (path_edges g (path r)).
Proof.
  intros H. pose proof (findShortestPath_build g s e m r H) as Hb.
  destruct (findShortestPath_Some_keys g s e m r H) as [Hs He].
  destruct (findShortestPath_spec g s e m Hs He)
    as [(r' & d & Hr & Hw & _)|[Hr _]]; rewrite Hr in H; [|done].
  injection H as ->.
  destruct (stored_nodes g (path r) (walk_keys _ _ _ _ _ _ Hw)) as [ns Hns].
  exists ns. split; [done|].
  unfold buildRouteResult in Hb.
  destruct (build_loop_trace g (path r) (walk_hops _ _ _ _ _ _ Hw) ns
    {| acc_distance := 0; acc_time := 0; acc_cost := 0;
       acc_coordinates := []; acc_segments := [] |} Hns)
    as (acc & Hacc & Hc & Hsg).
  rewrite Hacc in Hb. cbn [mbind Completion_bind] in Hb.
  cbn [acc_coordinates acc_segments app] in Hc, Hsg.
  destruct (walk_ends _ _ _ _ _ _ Hw) as [_ Hl]. rewrite Hl in Hb.
  apply last_Some in Hl as [p' Hp'].
  rewrite Hp' in Hns. apply Forall2_app_inv_l in Hns
    as (ns1 & ns2 & Hns1 & Hns2 & ->).
  apply Forall2_cons_inv_l in Hns2 as (n & ns3 & Hn & Hnil & ->).
  apply Forall2_nil_inv_l in Hnil as ->.
  rewrite Hn in Hb. cbn [mbind Completion_bind] in Hb.
  injection Hb as <-. cbn [coordinates segments path].
  rewrite Hc, Hsg. split; [|done].
  rewrite removelast_last, fmap_app. done.
Qed.

Lemma findShortestPath_coordinates_witness :
  ∃ r ns,
    findShortestPath initializeIndianRoadNetwork "mumbai" "pune" distance
    = Normal (Some r) ∧
    Forall2 (λ id n, getNode initializeIndianRoadNetwork id = Some n)
      (path r) ns ∧
    coordinates r = coordinate <$> ns ∧
    segments r =
      segments_of ns (path_edges initializeIndianRoadNetwork (path r)).
Proof.
  destruct (findShortestPath initializeIndianRoadNetwork
              "mumbai" "pune" distance) as [[r|]| |] eqn:Hr;
    [|vm_compute in Hr; discriminate ..].
  destruct (findShortestPath_coordinates initializeIndianRoadNetwork
              "mumbai" "pune" distance r Hr) as (ns & H).
  exists r, ns. split; [reflexivity | exact H].
Defined.

(** X2. A result visits no node twice, and every id of its path is a
    stored node: the path is no longer than the list of nodes. *)
Theorem findShortestPath_simple g s e m r :
  findShortestPath g s e m = Normal (Some r) →
  NoDup (path r) ∧
  (∀ id, id ∈ path r → is_Some (getNode g id)) ∧
  (length (path r) ≤ length (getAllNodes g))%nat.
Proof.
  intros H. destruct (findShortestPath_Some_keys g s e m r H) as [Hs He].
  destruct (findShortestPath_spec g s e m Hs He)
    as [(r' & d & Hr & Hw & Hnd & _)|[Hr _]]; rewrite Hr in H; [|done].
  injection H as ->. pose proof (walk_keys _ _ _ _ _ _ Hw) as Hk.
  split_and!; [done | |].
  - intros id Hid. by apply Map_get_Some, Hk.
  - unfold getAllNodes. rewrite length_fmap.
    replace (length (nodes g)) with (length (Map_keys (nodes g)))
      by (unfold Map_keys; apply length_fmap).
    by apply submseteq_length, NoDup_submseteq.
Qed.

Lemma findShortestPath_simple_witness :
  ∃ r,
    findShortestPath initializeIndianRoadNetwork "delhi" "pune" cost
    = Normal (Some r) ∧
    NoDup (path r) ∧
    (∀ id, id ∈ path r → is_Some (getNode initializeIndianRoadNetwork id)) ∧
    (length (path r) ≤ length (getAllNodes initializeIndianRoadNetwork))%nat.
Proof.
  destruct (findShortestPath initializeIndianRoadNetwork
              "delhi" "pune" cost) as [[r|]| |] eqn:Hr;
    [|vm_compute in Hr; discriminate ..].
  exists r. split; [reflexivity|].
  exact (findShortestPath_simple initializeIndianRoadNetwork
           "delhi" "pune" cost r Hr).
Defined.



(** X4. No result of a search is dropped by [findMultipleRoutes]: the
    path that a mode finds is the path of one of the returned routes. *)
Theorem findMultipleRoutes_covers g s e m r :
  findShortestPath g s e m = Normal (Some r) →
  ∃ routes r',
    findMultipleRoutes g s e = Normal routes ∧
    r' ∈ routes ∧ path r' = path r.
Proof.
  intros H.
  destruct (findShortestPath_total g s e distance) as [rd Hd].
  destruct (findShortestPath_total g s e time) as [rt Ht].
  destruct (findShortestPath_total g s e cost) as [rc Hc].
  unfold findMultipleRoutes. rewrite Hd, Ht, Hc.
  cbn [mbind Completion_bind].
  set (routes1 := match rd with Some r0 => [r0] | None => [] end).
  set (routes2 := match rt with
                  | Some r0 => if negb (routesEqual rd rt)
                               then routes1 ++ [r0] else routes1
                  | None => routes1 end).
  assert (∀ r0, rd = Some r0 → r0 ∈ routes1) as H1.
  { intros r0 ->. by left. }
  assert (∀ r0, r0 ∈ routes1 → r0 ∈ routes2) as H12.
  { intros r0 Hr0. unfold routes2. destruct rt as [r1|]; [|done].
    destruct (negb _); [|done]. apply elem_of_app. by left. }
  assert (∀ r0, rt = Some r0 → ∃ r', r' ∈ routes2 ∧ path r' = path r0) as H2.
  { intros r0 ->. unfold routes2.
    destruct (routesEqual rd (Some r0)) eqn:Heq; cbn [negb].
    - destruct rd as [r1|]; [|done]. cbn [routesEqual] in Heq.
      apply bool_decide_eq_true in Heq. exists r1. split; [by left | done].
    - exists r0. split; [|done]. apply elem_of_app. right. by left. }
  match goal with
  | |- ∃ routes r', Normal ?x = Normal routes ∧ _ => exists x
  end.
  destruct rc as [r3|].
  - destruct (existsb _ routes2) eqn:Hex; cbn [negb].
    + apply existsb_exists in Hex as (r4 & Hr4 & Heq).
      apply list_elem_of_In in Hr4. cbn [routesEqual] in Heq.
      apply bool_decide_eq_true in Heq.
      destruct m; rewrite H in *.
      * injection Hd as <-. exists r. split_and!; [done | | done].
        apply H12, H1. done.
      * injection Ht as <-. destruct (H2 r eq_refl) as (r' & ? & ?).
        exists r'. done.
      * injection Hc as <-. exists r4. done.
    + destruct m; rewrite H in *.
      * injection Hd as <-. exists r. split_and!; [done | | done].
        apply elem_of_app. left. apply H12, H1. done.
      * injection Ht as <-. destruct (H2 r eq_refl) as (r' & ? & ?).
        exists r'. split_and!; [done | | done]. apply elem_of_app. by left.
      * injection Hc as <-. exists r. split_and!; [done | | done].
        apply elem_of_app. right. by left.
  - destruct m; rewrite H in *.
    + injection Hd as <-. exists r. split_and!; [done | | done].
      apply H12, H1. done.
    + injection Ht as <-. destruct (H2 r eq_refl) as (r' & ? & ?).
      exists r'. done.
    + discriminate.
Qed.

Lemma findMultipleRoutes_covers_witness :
  ∃ r routes r',
    findShortestPath initializeIndianRoadNetwork "delhi" "mumbai" cost
    = Normal (Some r) ∧
    findMultipleRoutes initializeIndianRoadNetwork "delhi" "mumbai"
    = Normal routes ∧
    r' ∈ routes ∧ path r' = path r.
Proof.
  destruct (findShortestPath initializeIndianRoadNetwork
              "delhi" "mumbai" cost) as [[r|]| |] eqn:Hr;
    [|vm_compute in Hr; discriminate ..].
  destruct (findMultipleRoutes_covers initializeIndianRoadNetwork
              "delhi" "mumbai" cost r Hr) as (routes & r' & H).
  exists r, routes, r'. split; [reflexivity | exact H].
Defined.

(** ** Reading the nodes *)

Lemma Map_set_fresh {V} (m : JsMap V) k v :
  Map_has m k = false → Map_set m k v = m ++ [(k, v)].
Proof.
  unfold Map_has. induction m as [|[k' v'] m IH]; simpl; [done|].
  destruct (decide (k' = k)) as [->|Hne]; [done|].
  intros H. by rewrite IH.
Qed.

Lemma Map_set_keys_stored {V} (m : JsMap V) k v :
  Map_has m k = true → Map_keys (Map_set m k v) = Map_keys m.
Proof.
  unfold Map_has, Map_keys. induction m as [|[k' v'] m IH]; simpl; [done|].
  destruct (decide (k' = k)) as [->|Hne]; [done|].
  intros H. cbn. f_equal. by apply IH.
Qed.

Lemma Map_has_set {V} (m : JsMap V) k v k' :
  Map_has (Map_set m k v) k' = if decide (k = k') then true else Map_has m k'.
Proof.
  unfold Map_has. case_decide as Hk; subst.
  - by rewrite Map_get_set_eq.
  - by rewrite Map_get_set_ne.
Qed.

Lemma Map_set_keys {V} (m : JsMap V) k v k' :
  k' ∈ Map_keys (Map_set m k v) ↔ k' = k ∨ k' ∈ Map_keys m.
Proof.
  rewrite <- !Map_has_true, Map_has_set. case_decide as Hk.
  - subst. split; [by left | done].
  - split; [by right | intros [->|H]; done].
Qed.

(** X5. [getNode] and [getAllNodes] after [addDynamicNode]: the id of the
    node now gives the node and every other id gives what it gave; a node
    under a new id comes last in the list, and a node under a stored id
    takes the place of the stored one, the ids keeping their order. *)
Theorem addDynamicNode_getNode hav node g :
  let g' := addDynamicNode hav node g in
  (∀ id, getNode g' id =
         if decide (id = node_id node) then Some node else getNode g id) ∧
  (getNode g (node_id node) = None →
     getAllNodes g' = getAllNodes g ++ [node]) ∧
  (is_Some (getNode g (node_id node)) →
     Map_keys (nodes g') = Map_keys (nodes g) ∧
     length (getAllNodes g') = length (getAllNodes g)).
Proof.
  intros g'. unfold g', getNode, getAllNodes.
  rewrite nodes_addDynamicNode. split_and!.
  - intros id. case_decide as Hid; subst.
    + apply Map_get_set_eq.
    + by apply Map_get_set_ne.
  - intros Hn. rewrite Map_set_fresh by (unfold Map_has; by rewrite Hn).
    by rewrite fmap_app.
  - intros [n Hn].
    assert (Map_has (nodes g) (node_id node) = true) as Hh
      by (unfold Map_has; by rewrite Hn).
    split; [by apply Map_set_keys_stored|].
    rewrite !length_fmap.
    rewrite <- (length_fmap fst (Map_set _ _ _)), <- (length_fmap fst (nodes g)).
    f_equal. by apply Map_set_keys_stored.
Qed.

(** ** The states of the router *)

Lemma well_formedb_sound g : well_formedb g = true → well_formed g.
Proof.
  unfold well_formedb, well_formed.
  intros [[Hk Hadj]%andb_prop Hed]%andb_prop. split_and!.
  - by apply keys_matchb_sound.
  - intros k Hin. rewrite forallb_forall in Hadj.
    apply list_elem_of_In, Hadj in Hin. by apply bool_decide_eq_true in Hin.
  - intros u e He. unfold neighbors in He.
    destruct (edges g !! u) as [l|] eqn:Hu; [|by apply elem_of_nil in He].
    simpl in He. apply elem_of_map_to_list, list_elem_of_In in Hu.
    rewrite forallb_forall in Hed. specialize (Hed _ Hu). simpl in Hed.
    rewrite forallb_forall in Hed. apply list_elem_of_In, Hed in He.
    apply andb_prop in He as [[Hf Hs]%andb_prop Ht].
    apply bool_decide_eq_true in Hf. by rewrite <- !Map_has_true.
Qed.


Lemma edges_addEdge_is_Some edge g k :
  is_Some (edges g !! k) → is_Some (edges (addEdge edge g) !! k).
Proof.
  intros Hk. unfold addEdge. cbn [edges].
  destruct (edges g !! edge_from edge) as [l|] eqn:Hl;
    rewrite lookup_alter; case_decide as Hf; subst.
  - rewrite Hl. by eexists.
  - done.
  - rewrite lookup_insert_eq. by eexists.
  - by rewrite lookup_insert_ne.
Qed.

Lemma edges_connect_is_Some newNode l :
  ∀ g k, is_Some (edges g !! k) →
         is_Some (edges (foldl (connect newNode) g l) !! k).
Proof.
  induction l as [|n l IH]; intros g k Hk; simpl; [done|].
  apply IH. unfold connect. by do 2 apply edges_addEdge_is_Some.
Qed.

Section RouterStates.
Variable hav : Q → Q → Q → Q → Q.

Lemma nearest_elem newNode entries n :
  n ∈ nearest hav newNode entries → n ∈ nearbyNodes hav newNode entries.
Proof.
  unfold nearest. intros (i & Hn & _)%elem_of_take.
  apply list_elem_of_lookup_2 in Hn. by rewrite sort_nearby_perm in Hn.
Qed.

(** In a graph that stores every node under its own id, the chosen
    neighbours are stored nodes. *)
Lemma nearest_stored node g n :
  keys_match g →
  n ∈ nearest hav node (Map_set (nodes g) (node_id node) node) →
  node_id (near_node n) ∈ Map_keys (nodes g).
Proof.
  intros Hkm Hn. apply nearest_elem, nearbyNodes_elem in Hn
    as (_ & _ & k & Hin & Hk).
  apply Map_set_elem in Hin as [[= -> _]|Hin]; [done|].
  rewrite (Hkm _ _ Hin). unfold Map_keys.
  apply list_elem_of_fmap. by exists (k, near_node n).
Qed.

Lemma keys_match_addDynamicNode node g :
  keys_match g → keys_match (addDynamicNode hav node g).
Proof.
  intros Hkm k n. rewrite nodes_addDynamicNode.
  intros [[= -> ->]|Hin]%Map_set_elem; [done|]. by apply Hkm.
Qed.

(** Every node has an adjacency list after the insertion when it had one
    before. *)
Lemma adjacency_addDynamicNode node g :
  (∀ k, k ∈ Map_keys (nodes g) → is_Some (edges g !! k)) →
  ∀ k, k ∈ Map_keys (nodes (addDynamicNode hav node g)) →
       is_Some (edges (addDynamicNode hav node g) !! k).
Proof.
  intros Hadj k. rewrite nodes_addDynamicNode, Map_set_keys.
  intros Hk. unfold addDynamicNode, connectToNearestNodes.
  apply edges_connect_is_Some. cbn [edges].
  rewrite lookup_insert. case_decide; [by eexists|].
  destruct Hk as [->|Hk]; [done|]. by apply Hadj.
Qed.

(** The edges after the insertion are stored under their [from] and join
    stored nodes: the old ones as before, the new ones between the new
    node and a chosen neighbour. *)
Lemma edges_stored_addDynamicNode node g :
  keys_match g →
  (∀ u e, e ∈ neighbors g u →
     edge_from e = u ∧ u ∈ Map_keys (nodes g) ∧
     edge_to e ∈ Map_keys (nodes g)) →
  ∀ u e, e ∈ neighbors (addDynamicNode hav node g) u →
    edge_from e = u ∧
    u ∈ Map_keys (nodes (addDynamicNode hav node g)) ∧
    edge_to e ∈ Map_keys (nodes (addDynamicNode hav node g)).
Proof.
  intros Hkm Hed u e. rewrite neighbors_addDynamicNode, nodes_addDynamicNode.
  rewrite !Map_set_keys. intros [He|He]%elem_of_app.
  - destruct (decide (u = node_id node)) as [->|Hu];
      [by apply elem_of_nil in He|].
    destruct (Hed _ _ He) as (? & ? & ?). split_and!; [done | by right..].
  - apply list_elem_of_filter in He as [Hfrom He].
    apply synthesized_elem in He as (n & Hn & He).
    pose proof (nearest_stored _ _ _ Hkm Hn) as Hst.
    split; [done|]. subst u.
    destruct He as [->| ->]; cbn; split; first [by left | by right].
Qed.

(** X6. [addDynamicNode] keeps the shape of the two maps: when every node
    is stored under its own id and has an adjacency list, and every edge
    is stored under its [from] and joins two stored nodes, the same holds
    after the insertion. *)
Theorem addDynamicNode_well_formed node g :
  well_formed g → well_formed (addDynamicNode hav node g).
Proof.
  intros (Hkm & Hadj & Hed). split_and!.
  - by apply keys_match_addDynamicNode.
  - by apply adjacency_addDynamicNode.
  - by apply edges_stored_addDynamicNode.
Qed.

End RouterStates.

Lemma addDynamicNode_well_formed_witness :
  well_formed (addDynamicNode flat_distance depot initializeIndianRoadNetwork).
Proof.
  apply addDynamicNode_well_formed.
  apply well_formedb_sound. vm_compute. reflexivity.
Defined.

Lemma seed_nonneg m : nonneg_weights initializeIndianRoadNetwork m.
Proof.
  apply nonneg_weightsb_sound. destruct m; vm_compute; reflexivity.
Qed.

Lemma dynamic_edge_nonneg newNode n m :
  0 <= near_distance n →
  0 <= weight m (dynamic_edge newNode n) ∧
  0 <= weight m (dynamic_edge_back newNode n).
Proof.
  intros Hd. unfold weight, dynamic_edge_back, dynamic_edge.
  destruct m;
    cbn [edge_distance edge_time edge_cost edge_tollCost edge_trafficFactor];
    split; try lra.
  all: unfold Qdiv; repeat apply Qmult_le_0_compat; try done;
    unfold Qle; simpl; lia.
Qed.

Lemma addDynamicNode_nonneg hav node g m :
  (∀ lat1 lng1 lat2 lng2, 0 <= hav lat1 lng1 lat2 lng2) →
  nonneg_weights g m → nonneg_weights (addDynamicNode hav node g) m.
Proof.
  intros Hhav Hg u e. rewrite neighbors_addDynamicNode.
  intros [He|He]%elem_of_app.
  - destruct (decide (u = node_id node)); [by apply elem_of_nil in He|].
    by apply (Hg u).
  - apply list_elem_of_filter in He as [_ He].
    apply synthesized_elem in He as (n & Hn & He).
    apply nearest_elem, nearbyNodes_elem in Hn as (_ & Hd & _).
    assert (0 <= near_distance n) as Hn by (rewrite Hd; apply Hhav).
    destruct (dynamic_edge_nonneg node n m Hn). by destruct He as [->| ->].
Qed.

Lemma router_state_nonneg hav g m :
  (∀ lat1 lng1 lat2 lng2, 0 <= hav lat1 lng1 lat2 lng2) →
  router_state hav g → nonneg_weights g m.
Proof.
  intros Hhav. induction 1 as [|g node _ IH]; [apply seed_nonneg|].
  by apply addDynamicNode_nonneg.
Qed.

Lemma flat_distance_nonneg lat1 lng1 lat2 lng2 :
  0 <= flat_distance lat1 lng1 lat2 lng2.
Proof.
  unfold flat_distance.
  pose proof (Qabs_nonneg (lat2 - lat1)). pose proof (Qabs_nonneg (lng2 - lng1)).
  lra.
Qed.



(** ** Inserted nodes and routes *)

Lemma walk_leaves g s m v p w :
  walk g s m v p w → v = s ∨ neighbors g s ≠ [].
Proof.
  induction 1 as [|u p w edge Hw IH He Hto]; [by left|]. right.
  destruct IH as [->|IH]; [|done].
  intros Hnil. rewrite Hnil in He. by apply elem_of_nil in He.
Qed.

Lemma nearbyNodes_none hav newNode entries :
  (∀ k n, (k, n) ∈ entries → k ≠ node_id newNode →
     100 <= hav (node_lat newNode) (node_lng newNode)
              (node_lat n) (node_lng n)) →
  nearbyNodes hav newNode entries = [].
Proof.
  induction entries as [|[k n] entries IH]; intros Hfar; [done|]. simpl.
  assert (nearbyNodes hav newNode entries = []) as ->.
  { apply IH. intros k' n' Hin. apply Hfar. by right. }
  destruct (decide (k = node_id newNode)) as [->|Hk]; [done|].
  destruct (Qltb _ 100) eqn:Hlt; [|done].
  apply Qltb_lt in Hlt. assert ((k, n) ∈ (k, n) :: entries) as Hin by (by left).
  specialize (Hfar k n Hin Hk).
  lra.
Qed.

(** X8. A node that is inserted when no stored node under another id is
    nearer than 100 gets no edge: no search that starts from it finds a
    route to another id, whatever the mode. *)
Theorem addDynamicNode_isolated hav node g e m :
  (∀ k n, (k, n) ∈ nodes g → k ≠ node_id node →
     100 <= hav (node_lat node) (node_lng node) (node_lat n) (node_lng n)) →
  e ≠ node_id node →
  neighbors (addDynamicNode hav node g) (node_id node) = [] ∧
  findShortestPath (addDynamicNode hav node g) (node_id node) e m
  = Normal None.
Proof.
  intros Hfar He.
  assert (neighbors (addDynamicNode hav node g) (node_id node) = []) as Hnil.
  { rewrite neighbors_addDynamicNode, decide_True by done.
    unfold nearest. rewrite nearbyNodes_none; [done|].
    intros k n Hin Hk.
    apply Map_set_elem in Hin as [[= -> ->]|Hin]; [done|]. by apply (Hfar k). }
  split; [done|].
  destruct (findShortestPath_total (addDynamicNode hav node g)
              (node_id node) e m) as [res Hres].
  rewrite Hres. f_equal. destruct res as [r|]; [|done].
  destruct (proj1 (findShortestPath_reachable _ _ _ _ _ Hres))
    as (p & w & Hw); [by eexists|].
  apply walk_leaves in Hw as [?|?]; done.
Qed.

Lemma addDynamicNode_isolated_witness :
  neighbors (addDynamicNode flat_distance island initializeIndianRoadNetwork)
    "island" = [] ∧
  findShortestPath
    (addDynamicNode flat_distance island initializeIndianRoadNetwork)
    "island" "mumbai" distance = Normal None.
Proof.
  apply (addDynamicNode_isolated flat_distance island
           initializeIndianRoadNetwork "mumbai" distance); [|done].
  intros k n Hin _.
  assert (forallb
            (λ kn, Qle_bool 100
                     (flat_distance (node_lat island) (node_lng island)
                        (node_lat kn.2) (node_lng kn.2)))
            (nodes initializeIndianRoadNetwork) = true) as Hall
    by (vm_compute; reflexivity).
  rewrite forallb_forall in Hall. apply list_elem_of_In, Hall in Hin.
  by apply Qle_bool_iff in Hin.
Defined.

Lemma findShortestPath_found g s e m p w :
  walk g s m e p w → ∃ r, findShortestPath g s e m = Normal (Some r).
Proof.
  intros Hw. destruct (findShortestPath_total g s e m) as [res Hres].
  destruct (proj2 (findShortestPath_reachable g s e m res Hres)) as [r ->];
    eauto.
Qed.

Lemma dynamic_edges_stored hav node g n :
  n ∈ nearest hav node (Map_set (nodes g) (node_id node) node) →
  dynamic_edge node n ∈ neighbors (addDynamicNode hav node g) (node_id node) ∧
  dynamic_edge_back node n
    ∈ neighbors (addDynamicNode hav node g) (node_id (near_node n)).
Proof.
  intros Hn. rewrite !neighbors_addDynamicNode.
  split; apply elem_of_app; right; apply list_elem_of_filter;
    (split; [done|]); apply synthesized_elem; exists n;
    (split; [done|]); [by left | by right].
Qed.

(** X9. After [addDynamicNode] on a graph that stores every node under its
    own id, a search from the new node to any of the chosen neighbours
    finds a route, and so does the search back, whatever the mode. *)
Theorem addDynamicNode_routes hav node g n m :
  keys_match g →
  n ∈ nearest hav node (nodes (addDynamicNode hav node g)) →
  let g' := addDynamicNode hav node g in
  (∃ r, findShortestPath g' (node_id node) (node_id (near_node n)) m
        = Normal (Some r)) ∧
  (∃ r, findShortestPath g' (node_id (near_node n)) (node_id node) m
        = Normal (Some r)).
Proof.
  intros Hkm Hn g'. rewrite nodes_addDynamicNode in Hn.
  destruct (dynamic_edges_stored hav node g n Hn) as [Hout Hback].
  pose proof (nearest_stored hav node g n Hkm Hn) as Hst.
  assert (node_id node ∈ Map_keys (nodes g')) as Hk1.
  { unfold g'. rewrite nodes_addDynamicNode, Map_set_keys. by left. }
  assert (node_id (near_node n) ∈ Map_keys (nodes g')) as Hk2.
  { unfold g'. rewrite nodes_addDynamicNode, Map_set_keys. by right. }
  split.
  - eapply (findShortestPath_found g' _ _ m).
    apply (walk_step g' (node_id node) m (node_id node) [node_id node] 0
             (dynamic_edge node n)); [by constructor | done | done].
  - eapply (findShortestPath_found g' _ _ m).
    apply (walk_step g' (node_id (near_node n)) m (node_id (near_node n))
             [node_id (near_node n)] 0 (reverse_edge (dynamic_edge node n)));
      [by constructor | done | done].
Qed.

Lemma addDynamicNode_routes_witness :
  let g' := addDynamicNode flat_distance depot initializeIndianRoadNetwork in
  ∃ n, n ∈ nearest flat_distance depot (nodes g') ∧
    (∃ r, findShortestPath g' "depot" (node_id (near_node n)) cost
          = Normal (Some r)) ∧
    (∃ r, findShortestPath g' (node_id (near_node n)) "depot" cost
          = Normal (Some r)).
Proof.
  intros g'.
  destruct (nearest flat_distance depot (nodes g')) as [|n l] eqn:Hn;
    [vm_compute in Hn; discriminate|].
  assert (n ∈ nearest flat_distance depot (nodes g')) as Hin
    by (rewrite Hn; left).
  exists n. split; [rewrite <- Hn; exact Hin|].
  exact (addDynamicNode_routes flat_distance depot
           initializeIndianRoadNetwork n cost seed_keys_match Hin).
Defined.

(** ** The way back *)






(** ** Insertion and the routes that were there *)

Lemma addDynamicNode_fresh_symmetric_witness :
  symmetric (addDynamicNode flat_distance depot initializeIndianRoadNetwork).
Proof.
  apply addDynamicNode_fresh_symmetric; [exact seed_symmetric | reflexivity].
Defined.




(** * Reachable states: routes and symmetry *)

Lemma bounded_weightsb_sound g m bound :
  bounded_weightsb g m bound = true → bounded_weights g m bound.
Proof.
  unfold bounded_weightsb, bounded_weights, neighbors.
  intros H u edge He. rewrite forallb_forall in H.
  destruct (edges g !! u) as [l|] eqn:Hu; [|by apply elem_of_nil in He].
  simpl in He. apply elem_of_map_to_list, list_elem_of_In in Hu.
  specialize (H _ Hu). simpl in H. rewrite forallb_forall in H.
  apply Qle_bool_iff, H. by apply list_elem_of_In.
Qed.

Lemma dynamic_edge_bounded newNode n m :
  0 <= near_distance n → near_distance n < 100 →
  weight m (dynamic_edge newNode n) <= 2000 ∧
  weight m (dynamic_edge_back newNode n) <= 2000.
Proof.
  intros H0 H100. unfold weight, dynamic_edge_back, dynamic_edge.
  assert (near_distance n / 60 == near_distance n * (1 # 60)) as Hdiv
    by (unfold Qdiv; reflexivity).
  destruct m;
    cbn [edge_distance edge_time edge_cost edge_tollCost edge_trafficFactor];
    rewrite ?Hdiv; split; lra.
Qed.

(** The weights of a state of the router: the largest one of the seed
    network is a cost of 1750, and a synthesized edge is shorter than
    100. *)
Lemma router_state_bounded hav g m :
  (∀ lat1 lng1 lat2 lng2, 0 <= hav lat1 lng1 lat2 lng2) →
  router_state hav g → bounded_weights g m 2000.
Proof.
  intros Hhav. induction 1 as [|g node _ IH].
  { apply bounded_weightsb_sound. destruct m; vm_compute; reflexivity. }
  intros u e. rewrite neighbors_addDynamicNode.
  intros [He|He]%elem_of_app.
  - destruct (decide (u = node_id node)); [by apply elem_of_nil in He|].
    by apply (IH u).
  - apply list_elem_of_filter in He as [_ He].
    apply synthesized_elem in He as (n & Hn & He).
    apply nearest_elem, nearbyNodes_elem in Hn as (H100 & Hd & _).
    assert (0 <= near_distance n) as Hn by (rewrite Hd; apply Hhav).
    destruct (dynamic_edge_bounded node n m Hn H100).
    by destruct He as [->| ->].
Qed.


(** X3. In the states that the constructor and [addDynamicNode] lead to,
    with a distance function that gives no negative number, every weight
    lies between 0 and 2000, far from where a sum overflows, and whether
    a route is found does not depend on the mode: a result other than
    [null] is returned exactly when a path of the graph joins the two
    ids. *)
Theorem findShortestPath_found_iff hav g s e m :
  (∀ lat1 lng1 lat2 lng2, 0 <= hav lat1 lng1 lat2 lng2) →
  router_state hav g →
  (nonneg_weights g m ∧ bounded_weights g m 2000) ∧
  ((∃ r, findShortestPath g s e m = Normal (Some r)) ↔
   ∃ p w, walk g s m e p w) ∧
  ∀ m', (∃ r, findShortestPath g s e m = Normal (Some r)) ↔
        (∃ r', findShortestPath g s e m' = Normal (Some r')).
Proof.
  intros Hhav Hg. split.
  { split; [by apply (router_state_nonneg hav)
           | by apply (router_state_bounded hav)]. }
  assert (∀ m0, (∃ r, findShortestPath g s e m0 = Normal (Some r)) ↔
                ∃ p w, walk g s m0 e p w) as Hiff.
  { intros m0. destruct (findShortestPath_total g s e m0) as [res Hres].
    pose proof (findShortestPath_reachable g s e m0 res Hres) as Hr.
    rewrite <- Hr, Hres. split.
    - intros [r [= ->]]. eauto.
    - intros [r ->]. eauto. }
  split; [apply Hiff|]. intros m'. rewrite !Hiff. split.
  - intros (p & w & Hw). destruct (walk_mode g s m m' e p w Hw). eauto.
  - intros (p & w & Hw). destruct (walk_mode g s m' m e p w Hw). eauto.
Qed.

Lemma findShortestPath_found_iff_witness :
  let g := addDynamicNode flat_distance depot initializeIndianRoadNetwork in
  (nonneg_weights g cost ∧ bounded_weights g cost 2000) ∧
  ((∃ r, findShortestPath g "depot" "delhi" cost = Normal (Some r)) ↔
   ∃ p w, walk g "depot" cost "delhi" p w) ∧
  ∀ m', (∃ r, findShortestPath g "depot" "delhi" cost = Normal (Some r)) ↔
        (∃ r', findShortestPath g "depot" "delhi" m' = Normal (Some r')).
Proof.
  apply (findShortestPath_found_iff flat_distance).
  - apply flat_distance_nonneg.
  - apply router_insert, router_initial.
Defined.







(** * The geofences and the price of a route *)

(** ** The toll of a list of points *)

Lemma toll_loop_cons cd gf mult a b rest t :
  toll_loop cd gf mult (a :: b :: rest) t =
  zones ← checkGeofenceEntry cd gf a.1 a.2;
  toll_loop cd gf mult (b :: rest)
    (foldl (charge mult) t (filter (λ zone, is_toll zone = true) zones)).
Proof. done. Qed.

Lemma toll_loop_last cd gf mult route p p' :
  ∀ t, toll_loop cd gf mult (route ++ [p]) t =
       toll_loop cd gf mult (route ++ [p']) t.
Proof.
  induction route as [|a route IH]; intros t; [done|].
  destruct route as [|b route]; [done|].
  cbn [app] in *. rewrite !toll_loop_cons.
  destruct (checkGeofenceEntry cd gf a.1 a.2); [|done..].
  cbn [mbind Completion_bind]. apply IH.
Qed.

(** X15. The toll does not look at the last point of the route: routes
    that differ in their last point only have the same toll, and a route
    of at most one point has toll 0, whatever the geofences are. *)
Theorem calculateIndianTollCost_last cd gf route vehicleType :
  (∀ p p',
     calculateIndianTollCost cd gf (route ++ [p]) vehicleType =
     calculateIndianTollCost cd gf (route ++ [p']) vehicleType) ∧
  ((length route ≤ 1)%nat →
   calculateIndianTollCost cd gf route vehicleType = Normal (Num 0)).
Proof.
  split.
  - intros p p'. unfold calculateIndianTollCost.
    by rewrite (toll_loop_last cd gf _ route p p').
  - intros Hlen. destruct route as [|a [|b route]]; [done | done |].
    simpl in Hlen. lia.
Qed.

Lemma isPointInGeofence_centre cd lat lng zone :
  has_centre zone = true → ∃ b, isPointInGeofence cd lat lng zone = Normal b.
Proof.
  unfold has_centre, isPointInGeofence.
  destruct (zone_type zone); [|by eexists].
  destruct (zone_coordinates zone); [done | by eexists].
Qed.

Lemma isPointInGeofence_no_centre cd lat lng zone :
  has_centre zone = false → isPointInGeofence cd lat lng zone = TypeError.
Proof.
  unfold has_centre, isPointInGeofence.
  destruct (zone_type zone); [|done].
  by destruct (zone_coordinates zone).
Qed.

Lemma entered_no_centre cd lat lng zones zone :
  zone ∈ zones → has_centre zone = false →
  ∀ acc, entered cd lat lng zones acc = TypeError.
Proof.
  intros Hin Hz. induction zones as [|z zones IH]; intros acc.
  { by apply elem_of_nil in Hin. }
  cbn [entered]. destruct (has_centre z) eqn:Hc.
  - destruct (isPointInGeofence_centre cd lat lng z Hc) as [b ->].
    cbn [mbind Completion_bind]. apply IH.
    apply elem_of_cons in Hin as [->|Hin]; [congruence | done].
  - by rewrite isPointInGeofence_no_centre.
Qed.

(** X16. A circle without coordinates among the geofences makes the toll
    of every route of two points or more throw a [TypeError], whatever
    its category is. *)
Theorem calculateIndianTollCost_no_centre cd gf zone route vehicleType :
  zone ∈ getAllGeofences gf →
  zone_type zone = circle → zone_coordinates zone = [] →
  (2 ≤ length route)%nat →
  calculateIndianTollCost cd gf route vehicleType = TypeError.
Proof.
  intros Hin Ht Hc Hlen. destruct route as [|a [|b route]];
    [simpl in Hlen; lia.. |].
  unfold calculateIndianTollCost. rewrite toll_loop_cons.
  unfold checkGeofenceEntry.
  rewrite (entered_no_centre cd a.1 a.2 _ zone Hin); [done|].
  unfold has_centre. by rewrite Ht, Hc.
Qed.

Lemma calculateIndianTollCost_no_centre_witness :
  calculateIndianTollCost flat_km
    (addGeofence initializeIndianGeofences broken_zone)
    [(1, 1); (2, 2)] "car" = TypeError.
Proof.
  apply (calculateIndianTollCost_no_centre flat_km _ broken_zone);
    [vm_compute; repeat constructor | reflexivity | reflexivity
    | simpl; lia].
Defined.

(** The zones that [checkGeofenceEntry] returns when every circle has a
    centre: the zones that hold the point, in the order of the map. *)
Lemma entered_filter cd lat lng zones :
  Forall (λ z, has_centre z = true) zones →
  ∀ acc,
    entered cd lat lng zones acc =
    Normal (acc ++ filter (λ z, point_in_zone cd lat lng z = true) zones).
Proof.
  induction 1 as [|z zones Hz _ IH]; intros acc; cbn [entered].
  { by rewrite app_nil_r. }
  rewrite filter_cons.
  destruct (isPointInGeofence_centre cd lat lng z Hz) as [b Hb].
  assert (point_in_zone cd lat lng z = b) as Hp
    by (unfold point_in_zone; rewrite Hb; by destruct b).
  rewrite Hb. cbn [mbind Completion_bind]. rewrite IH. destruct b.
  - rewrite decide_True by done. by rewrite <- app_assoc.
  - rewrite decide_False; [done | congruence].
Qed.

Lemma entered_snoc cd lat lng zones zone :
  ∀ acc,
    entered cd lat lng (zones ++ [zone]) acc =
    l ← entered cd lat lng zones acc; entered cd lat lng [zone] l.
Proof.
  induction zones as [|z zones IH]; intros acc; cbn [app entered].
  { done. }
  destruct (isPointInGeofence cd lat lng z); [|done..].
  cbn [mbind Completion_bind]. apply IH.
Qed.

Lemma filter_toll_snoc l zone :
  is_toll zone = false →
  filter (λ z, is_toll z = true) (l ++ [zone]) =
  filter (λ z, is_toll z = true) l.
Proof.
  intros Hz. rewrite filter_app, filter_cons, decide_False by congruence.
  by rewrite filter_nil, app_nil_r.
Qed.

(** X17. A zone that is no toll plaza and, as a circle, has a centre
    changes no toll when [addGeofence] stores it under a new id. *)
Theorem addGeofence_toll cd gf zone route vehicleType :
  Map_has gf (zone_id zone) = false →
  is_toll zone = false → has_centre zone = true →
  calculateIndianTollCost cd (addGeofence gf zone) route vehicleType =
  calculateIndianTollCost cd gf route vehicleType.
Proof.
  intros Hfresh Htoll Hc. unfold calculateIndianTollCost, addGeofence.
  rewrite Map_set_fresh by done. f_equal.
  generalize (Num 0). generalize (lookup_or tollRates vehicleType 2).
  intros mult. induction route as [|a [|b route] IH]; intros t; [done..|].
  rewrite !toll_loop_cons. unfold checkGeofenceEntry.
  rewrite fmap_app. change ([(zone_id zone, zone)].*2) with [zone].
  rewrite entered_snoc.
  destruct (entered cd a.1 a.2 gf.*2 []) as [l| |]; [|done..].
  cbn [mbind Completion_bind entered].
  destruct (isPointInGeofence_centre cd a.1 a.2 zone Hc) as [inside ->].
  cbn [mbind Completion_bind]. destruct inside.
  - rewrite filter_toll_snoc by done. apply IH.
  - apply IH.
Qed.

Lemma addGeofence_toll_witness :
  calculateIndianTollCost flat_km
    (addGeofence initializeIndianGeofences rest_zone)
    [(188642 # 10000, 733467 # 10000); (2, 2)] "large" =
  calculateIndianTollCost flat_km initializeIndianGeofences
    [(188642 # 10000, 733467 # 10000); (2, 2)] "large".
Proof.
  apply (addGeofence_toll flat_km initializeIndianGeofences rest_zone);
    reflexivity.
Defined.

Lemma Math_round_comp x y : x == y → Math_round x = Math_round y.
Proof. intros H. unfold Math_round. by rewrite H. Qed.

Lemma jsnum_le_comp d y y' :
  y == y' → jsnum_le d (Num y) = jsnum_le d (Num y').
Proof.
  intros H. destruct d as [x|]; [|done]. cbn [jsnum_le].
  apply eq_true_iff_eq. rewrite !Qle_bool_iff. by rewrite H.
Qed.

Lemma filter_toll_point cd lat lng (zones : list GeofenceZone) :
  filter (λ z, is_toll z = true)
    (filter (λ z, point_in_zone cd lat lng z = true) zones) =
  filter (λ z, point_in_zone cd lat lng z = true)
    (filter (λ z, is_toll z = true) zones).
Proof.
  induction zones as [|z zones IH]; [done|].
  rewrite !filter_cons.
  destruct (decide (point_in_zone cd lat lng z = true)) as [Hp|Hp],
    (decide (is_toll z = true)) as [Ht|Ht];
    rewrite ?filter_cons, ?decide_True, ?decide_False by done;
    by rewrite IH.
Qed.

(** The toll plazas that the geofences of the constructor hold at a
    point: the one of Khalapur, when the point is within its radius. *)
Lemma initial_toll_zones cd lat lng :
  ∃ khalapur zones,
    zone_state (zone_properties khalapur) = "Maharashtra" ∧
    checkGeofenceEntry cd initializeIndianGeofences lat lng = Normal zones ∧
    filter (λ zone, is_toll zone = true) zones =
    if at_khalapur cd (lat, lng) then [khalapur] else [].
Proof.
  eexists. eexists. split; cycle 1.
  - unfold checkGeofenceEntry. rewrite entered_filter
      by (vm_compute; repeat constructor).
    split; [reflexivity|]. cbn [app]. rewrite filter_toll_point.
    match goal with
    | |- context [filter (λ z, is_toll z = true) ?l] =>
        let l' := eval vm_compute in (filter (λ z, is_toll z = true) l) in
        change (filter (λ z, is_toll z = true) l) with l'
    end.
    rewrite filter_cons, filter_nil.
    match goal with
    | |- context [point_in_zone cd lat lng ?z] =>
        assert (point_in_zone cd lat lng z = at_khalapur cd (lat, lng)) as ->
    end.
    { unfold point_in_zone, isPointInGeofence, at_khalapur.
      cbn [zone_type zone_coordinates zone_radius lookup list_lookup fst snd].
      rewrite (jsnum_le_comp _ _ 1) by reflexivity.
      by destruct (jsnum_le _ _). }
    destruct (at_khalapur cd (lat, lng));
      [rewrite decide_True by done | rewrite decide_False by done];
      reflexivity.
  - reflexivity.
Qed.

Lemma toll_loop_initial cd k route :
  ∀ t, ∃ t',
    toll_loop cd initializeIndianGeofences (JNum k) route (Num t)
    = Normal (Num t') ∧
    t' == t + 65 * k *
            inject_Z (Z.of_nat
              (length (filter (λ p, at_khalapur cd p = true)
                         (removelast route)))).
Proof.
  induction route as [|a [|b route] IH]; intros t.
  - exists t. split; [done|]. change (t == t + 65 * k * 0). ring.
  - exists t. split; [done|]. change (t == t + 65 * k * 0). ring.
  - rewrite toll_loop_cons, removelast_cons2, filter_cons.
    destruct (initial_toll_zones cd a.1 a.2) as (kh & zones & Hst & -> & Hz).
    cbn [mbind Completion_bind]. rewrite Hz, <- surjective_pairing.
    destruct (at_khalapur cd a) eqn:Ha.
    + rewrite decide_True by done. cbn [foldl]. unfold charge.
      rewrite Hst.
      change (getBaseTollCost "Maharashtra") with (JNum 65).
      cbn [to_number jsnum_mul jsnum_add].
      destruct (IH (t + 65 * k)) as (t' & -> & Ht').
      exists t'. split; [done|]. rewrite Ht'.
      cbn [length]. rewrite Nat2Z.inj_succ, <- Z.add_1_r, inject_Z_plus.
      change (inject_Z 1) with 1. ring.
    + rewrite decide_False by congruence. cbn [foldl]. apply IH.
Qed.

(** X18. With the geofences of the constructor the toll is a multiple of
    the rate of Maharashtra: a vehicle type that gives the multiplier [k]
    pays [65 * k] for each point of the route, other than the last, that
    is within 1 km of the Khalapur toll plaza, the sum being rounded at
    the end; no other zone is charged. *)
Theorem calculateIndianTollCost_initial cd route vehicleType k :
  lookup_or tollRates vehicleType 2 = JNum k →
  calculateIndianTollCost cd initializeIndianGeofences route vehicleType =
  Normal
    (Num (Math_round
            (65 * k *
             inject_Z (Z.of_nat
               (length (filter (λ p, at_khalapur cd p = true)
                          (removelast route))))))).
Proof.
  intros Hk. unfold calculateIndianTollCost. rewrite Hk.
  destruct (toll_loop_initial cd k route 0) as (t' & -> & Ht').
  cbn [mbind Completion_bind jsnum_round]. do 2 f_equal.
  apply Math_round_comp. rewrite Ht'. ring.
Qed.

Lemma calculateIndianTollCost_initial_witness :
  calculateIndianTollCost flat_km initializeIndianGeofences
    [(188642 # 10000, 733467 # 10000); (1886 # 100, 7335 # 100);
     (188642 # 10000, 733467 # 10000)] "medium" =
  Normal
    (Num (Math_round
            (65 * (5 # 2) *
             inject_Z (Z.of_nat
               (length (filter (λ p, at_khalapur flat_km p = true)
                          (removelast
                             [(188642 # 10000, 733467 # 10000);
                              (1886 # 100, 7335 # 100);
                              (188642 # 10000, 733467 # 10000)]))))))).
Proof.
  apply (calculateIndianTollCost_initial flat_km _ "medium" (5 # 2)).
  reflexivity.
Defined.

Lemma lookup_or_inherited vehicleType :
  vehicleType ∈ Object_prototype_names →
  lookup_or tollRates vehicleType 2 = JObject.
Proof.
  unfold Object_prototype_names. intros Hin.
  repeat (apply elem_of_cons in Hin as [->|Hin]; [reflexivity|]).
  by apply elem_of_nil in Hin.
Qed.

Lemma toll_loop_inherited cd route :
  ∀ t,
    toll_loop cd initializeIndianGeofences JObject route t =
    Normal (if passes_khalapur cd route then NaN else t).
Proof.
  unfold passes_khalapur.
  induction route as [|a [|b route] IH]; intros t; [done..|].
  rewrite toll_loop_cons, removelast_cons2.
  destruct (initial_toll_zones cd a.1 a.2) as (kh & zones & Hst & -> & Hz).
  cbn [mbind Completion_bind existsb]. rewrite Hz, <- surjective_pairing.
  destruct (at_khalapur cd a) eqn:Ha; cbn [foldl orb]; [|apply IH].
  rewrite IH. unfold charge. cbn [to_number jsnum_mul].
  destruct (to_number _); cbn [jsnum_mul jsnum_add];
    by destruct (existsb _ _), t.
Qed.

(** X25. A vehicle type that is the name of a property every object
    inherits ([constructor], [toString], ...) is not taken for unknown:
    it gives no number as the multiplier, and with the geofences of the
    constructor the toll is [NaN] as soon as a point other than the last
    is at the Khalapur toll plaza, and 0 otherwise. *)
Theorem calculateIndianTollCost_inherited cd route vehicleType :
  vehicleType ∈ Object_prototype_names →
  calculateIndianTollCost cd initializeIndianGeofences route vehicleType =
  Normal (if passes_khalapur cd route then NaN else Num 0).
Proof.
  intros Hin. unfold calculateIndianTollCost.
  rewrite lookup_or_inherited, toll_loop_inherited by done.
  cbn [mbind Completion_bind]. by destruct (passes_khalapur cd route).
Qed.

Lemma calculateIndianTollCost_inherited_witness :
  calculateIndianTollCost flat_km initializeIndianGeofences
    [(188642 # 10000, 733467 # 10000); (2, 2)] "toString" =
  Normal
    (if passes_khalapur flat_km [(188642 # 10000, 733467 # 10000); (2, 2)]
     then NaN else Num 0).
Proof.
  apply calculateIndianTollCost_inherited. unfold Object_prototype_names.
  repeat first [by left | right].
Defined.

(** ** The price of a route *)

Lemma Qfloor_unique (z : Z) (x : Q) :
  inject_Z z <= x → x < inject_Z z + 1 → Qfloor x = z.
Proof.
  intros Hle Hlt. pose proof (Qfloor_le x) as H1.
  pose proof (Qlt_floor x) as H2. rewrite inject_Z_plus in H2.
  change (inject_Z 1) with 1 in H2.
  assert (inject_Z (Qfloor x) < inject_Z (z + 1)) as H3
    by (rewrite inject_Z_plus; change (inject_Z 1) with 1; lra).
  assert (inject_Z z < inject_Z (Qfloor x + 1)) as H4
    by (rewrite inject_Z_plus; change (inject_Z 1) with 1; lra).
  rewrite <- Zlt_Qlt in H3, H4. lia.
Qed.

(** [Math.round] moves with a whole number. *)
Lemma Math_round_shift (z : Z) (x y : Q) :
  y == inject_Z z + x → Math_round y = inject_Z (z + Qfloor (x + (1 # 2))).
Proof.
  intros Hy. unfold Math_round. f_equal. apply Qfloor_unique.
  - pose proof (Qfloor_le (x + (1 # 2))). rewrite inject_Z_plus, Hy. lra.
  - pose proof (Qlt_floor (x + (1 # 2))) as H.
    rewrite !inject_Z_plus in *. rewrite Hy.
    change (inject_Z 1) with 1 in H. lra.
Qed.

Lemma Math_round_whole (z : Z) (y : Q) :
  y == inject_Z z → Math_round y = inject_Z z.
Proof.
  intros Hy. rewrite (Math_round_shift z 0) by (rewrite Hy; ring).
  f_equal. change (Qfloor (0 + (1 # 2))) with 0%Z. lia.
Qed.

Lemma Math_round_is_whole (x : Q) : ∃ z, Math_round x = inject_Z z.
Proof. by eexists. Qed.

(** X19. The breakdown that [calculatePricing] gives for a route of
    [findShortestPath], when the toll is a number: the fuel, driver and
    maintenance costs are 8, 8 and 2 times the totals of the route with
    nothing lost to rounding, the total cost is their sum with the toll
    (the permit cost is not part of it), and the customer price is the
    total cost plus the profit margin. *)
Theorem calculatePricing_adds_up cd gf g s e m r pr toll :
  findShortestPath g s e m = Normal (Some r) →
  calculatePricing cd gf r = Normal pr →
  price_tollCost pr = Num toll →
  price_fuelCost pr == totalDistance r * 8 ∧
  price_driverCost pr == totalTime r * 8 ∧
  price_maintenanceCost pr == totalDistance r * 2 ∧
  ∃ total margin customer,
    price_totalCost pr = Num total ∧
    price_profitMargin pr = Num margin ∧
    price_customerPrice pr = Num customer ∧
    total == price_fuelCost pr + toll + price_driverCost pr
             + price_maintenanceCost pr ∧
    customer == total + margin.
Proof.
  intros H Hp Htoll.
  destruct (findShortestPath_Some_keys g s e m r H) as [Hs He].
  destruct (findShortestPath_spec g s e m Hs He)
    as [(r0 & d & Hr & _ & _ & _ & HD & HT & _)|[Hr _]];
    rewrite Hr in H; [|done].
  injection H as ->.
  destruct (Math_round_is_whole
              (sum_by edge_distance (path_edges g (path r)))) as [zd Hzd].
  destruct (Math_round_is_whole
              (sum_by effective_time (path_edges g (path r)))) as [zt Hzt].
  rewrite Hzd in HD. rewrite Hzt in HT.
  unfold calculatePricing in Hp.
  destruct (calculateIndianTollCost cd gf (coordinates r) "medium")
    as [tollCost| |] eqn:Hc; [|done..].
  cbn [mbind Completion_bind] in Hp. injection Hp as <-.
  cbn [price_tollCost] in Htoll. subst tollCost.
  cbn [price_fuelCost price_driverCost price_maintenanceCost price_totalCost
       price_profitMargin price_customerPrice jsnum_add jsnum_mul
       jsnum_round].
  unfold calculateIndianTollCost in Hc.
  destruct (toll_loop cd gf _ (coordinates r) (Num 0)) as [[t|]| |];
    try done.
  cbn [mbind Completion_bind jsnum_round] in Hc. injection Hc as <-.
  destruct (Math_round_is_whole t) as [zl Hzl]. rewrite Hzl, HD, HT.
  rewrite (Math_round_whole (zd * 8) (inject_Z zd * 8))
    by (rewrite inject_Z_mult; reflexivity).
  rewrite (Math_round_whole (zt * 8) (inject_Z zt * 8))
    by (rewrite inject_Z_mult; reflexivity).
  rewrite (Math_round_whole (zd * 2) (inject_Z zd * 2))
    by (rewrite inject_Z_mult; reflexivity).
  set (k := (zd * 8 + zl + zt * 8 + zd * 2)%Z).
  set (tc := inject_Z zd * 8 + inject_Z zl + inject_Z zt * 8
             + inject_Z zd * 2).
  assert (tc == inject_Z k) as Htc.
  { unfold tc, k. rewrite !inject_Z_plus, !inject_Z_mult. reflexivity. }
  split_and!; [by rewrite inject_Z_mult..|].
  eexists _, _, _. split_and!; [reflexivity..| |].
  - rewrite (Math_round_whole k tc Htc), <- Htc. unfold tc.
    rewrite !inject_Z_mult. reflexivity.
  - rewrite (Math_round_whole k tc Htc).
    rewrite (Math_round_shift k (tc * (1 # 4)) (tc * (5 # 4)))
      by (rewrite <- Htc; ring).
    unfold Math_round. rewrite inject_Z_plus. reflexivity.
Qed.

Lemma calculatePricing_adds_up_witness :
  ∃ r pr toll,
    findShortestPath initializeIndianRoadNetwork "mumbai" "pune" distance
    = Normal (Some r) ∧
    calculatePricing flat_km initializeIndianGeofences r = Normal pr ∧
    price_tollCost pr = Num toll ∧
    price_fuelCost pr == totalDistance r * 8 ∧
    price_driverCost pr == totalTime r * 8 ∧
    price_maintenanceCost pr == totalDistance r * 2 ∧
    ∃ total margin customer,
      price_totalCost pr = Num total ∧
      price_profitMargin pr = Num margin ∧
      price_customerPrice pr = Num customer ∧
      total == price_fuelCost pr + toll + price_driverCost pr
               + price_maintenanceCost pr ∧
      customer == total + margin.
Proof.
  eexists. eexists. eexists.
  split; [vm_compute; reflexivity|].
  split; [vm_compute; reflexivity|].
  split; [reflexivity|].
  eapply (calculatePricing_adds_up flat_km initializeIndianGeofences
            initializeIndianRoadNetwork "mumbai" "pune" distance);
    [vm_compute; reflexivity | vm_compute; reflexivity | reflexivity].
Defined.

(** ** Point in polygon *)

Lemma Qltb_comp x b b' : b == b' → Qltb x b = Qltb x b'.
Proof.
  intros H. apply eq_true_iff_eq. rewrite !Qltb_lt. by rewrite H.
Qed.

Lemma Qltb_ge (a b : Q) : Qltb a b = false ↔ b <= a.
Proof.
  rewrite <- not_true_iff_false, Qltb_lt. split; [apply Qnot_lt_le|].
  intros H1 H2. lra.
Qed.

(** An edge between two vertices of the same [y] is never crossed. *)
Lemma crossing_level x y x1 x2 yv : crossing x y [x1; yv] [x2; yv] = false.
Proof.
  unfold crossing. cbn [lookup list_lookup]. by rewrite eqb_reflx.
Qed.

(** An edge between two vertices of the same [x] is crossed by the ray
    of a point to its left, at a height between the two. *)
Lemma crossing_upright x y xv y1 y2 :
  crossing x y [xv; y1] [xv; y2] =
  negb (eqb (Qltb y y1) (Qltb y y2)) && Qltb x xv.
Proof.
  unfold crossing. cbn [lookup list_lookup above].
  destruct (negb _); [|done]. cbn [andb]. apply Qltb_comp.
  unfold Qdiv. ring.
Qed.

(** X20. On the ring of a rectangle, written as the constructor writes
    its three polygons, [isPointInPolygon] holds exactly on the rectangle
    with its west and south sides and without its east and north
    sides. *)
Theorem isPointInPolygon_rectangle a b c d lat lng :
  a < c → b < d →
  isPointInPolygon lat lng (rectangle a b c d) = true ↔
  a <= lng ∧ lng < c ∧ b <= lat ∧ lat < d.
Proof.
  intros Hac Hbd. unfold isPointInPolygon, rectangle.
  cbn [last polygon_loop].
  rewrite !crossing_level, !crossing_upright.
  destruct (Qltb lat d) eqn:H1, (Qltb lat b) eqn:H2,
    (Qltb lng c) eqn:H3, (Qltb lng a) eqn:H4; cbn;
    rewrite ?Qltb_lt, ?Qltb_ge in *;
    (split; [try discriminate; intros _ | try reflexivity; intros (?&?&?&?)]);
    try (split_and!); lra.
Qed.

Lemma isPointInPolygon_rectangle_witness :
  isPointInPolygon (1892 # 100) (7282 # 100)
    (rectangle (7282 # 100) (1892 # 100) (7286 # 100) (1896 # 100)) = true ↔
  7282 # 100 <= 7282 # 100 ∧ 7282 # 100 < 7286 # 100 ∧
  1892 # 100 <= 1892 # 100 ∧ 1892 # 100 < 1896 # 100.
Proof.
  apply isPointInPolygon_rectangle; reflexivity.
Defined.

Lemma polygon_loop_calm x y ring :
  (∀ vi vj, vi ∈ ring → vj ∈ ring → crossing x y vi vj = false) →
  ∀ rest vj inside,
    vj ∈ ring → rest ⊆ ring → polygon_loop x y vj rest inside = inside.
Proof.
  intros Hcalm. induction rest as [|vi rest IH]; intros vj inside Hj Hsub;
    [done|].
  cbn [polygon_loop].
  assert (vi ∈ ring) as Hi by (apply Hsub; by left).
  rewrite (Hcalm vi vj Hi Hj). apply IH; [done|].
  intros v Hv. apply Hsub. by right.
Qed.

(** An edge is crossed only when the two comparisons of [y] with the
    second entries of its ends come out differently, both entries being
    there. *)
Lemma crossing_sides x y vi vj :
  crossing x y vi vj = true →
  ∃ yi yj, vi !! 1%nat = Some yi ∧ vj !! 1%nat = Some yj ∧
           Qltb y yi ≠ Qltb y yj.
Proof.
  unfold crossing. intros H.
  destruct (vi !! 1%nat) as [yi|], (vj !! 1%nat) as [yj|];
    cbn [above] in H.
  - destruct (eqb (Qltb y yi) (Qltb y yj)) eqn:He; [done|].
    apply eqb_false_iff in He. by exists yi, yj.
  - destruct (negb _); [|done].
    by destruct (vi !! 0%nat), (vj !! 0%nat).
  - destruct (negb _); [|done].
    by destruct (vi !! 0%nat), (vj !! 0%nat).
  - done.
Qed.

(** X21. A point that is at or above the latitude of every vertex of a
    ring, or below the latitude of every vertex, is never inside for
    [isPointInPolygon], whatever its longitude and whatever the ring
    (vertices with missing entries included): no edge has its ends on
    the two sides of the point, and only comparisons decide that. *)
Theorem isPointInPolygon_outside lat lng ring :
  (∀ v y, v ∈ ring → v !! 1%nat = Some y → y <= lat) ∨
  (∀ v y, v ∈ ring → v !! 1%nat = Some y → lat < y) →
  isPointInPolygon lat lng ring = false.
Proof.
  intros Hout. unfold isPointInPolygon.
  destruct (last ring) as [vj|] eqn:Hlast; [|done].
  assert (vj ∈ ring) as Hj.
  { apply last_Some in Hlast as [l ->]. apply elem_of_app. right. by left. }
  apply (polygon_loop_calm lng lat ring); [|done..].
  intros vi vk Hi Hk. destruct (crossing _ _ _ _) eqn:Hc; [|done].
  apply crossing_sides in Hc as (yi & yk & Hyi & Hyk & Hne).
  destruct Hout as [Hout|Hout].
  - pose proof (Hout _ _ Hi Hyi) as H1. pose proof (Hout _ _ Hk Hyk) as H2.
    apply Qltb_ge in H1, H2. congruence.
  - pose proof (Hout _ _ Hi Hyi) as H1. pose proof (Hout _ _ Hk Hyk) as H2.
    apply Qltb_lt in H1, H2. congruence.
Qed.

Lemma isPointInPolygon_outside_witness :
  isPointInPolygon (23 # 1) (75 # 1)
    (rectangle (726369 # 10000) (201204 # 10000)
       (808913 # 10000) (220273 # 10000)) = false.
Proof.
  apply isPointInPolygon_outside. left.
  intros v y Hin Hy. unfold rectangle in Hin.
  repeat (apply elem_of_cons in Hin as [->|Hin];
          [injection Hy as <-; apply Qle_bool_imp_le; reflexivity|]).
  by apply elem_of_nil in Hin.
Defined.

(** ** The geofence check *)

Lemma entered_not_OutOfFuel cd lat lng zones :
  ∀ acc, entered cd lat lng zones acc ≠ OutOfFuel.
Proof.
  induction zones as [|z zones IH]; intros acc; [done|]. cbn [entered].
  destruct (has_centre z) eqn:Hc.
  - destruct (isPointInGeofence_centre cd lat lng z Hc) as [b ->].
    apply IH.
  - by rewrite isPointInGeofence_no_centre.
Qed.

(** X22. [checkGeofenceEntry] returns the stored zones whose check holds
    at the point, in the order of the map, when every circle has
    coordinates; it throws a [TypeError] exactly when a stored circle has
    none. *)
Theorem checkGeofenceEntry_spec cd gf lat lng :
  (Forall (λ zone, has_centre zone = true) (getAllGeofences gf) →
   checkGeofenceEntry cd gf lat lng =
   Normal (filter (λ zone, point_in_zone cd lat lng zone = true)
             (getAllGeofences gf))) ∧
  (checkGeofenceEntry cd gf lat lng = TypeError ↔
   ∃ zone, zone ∈ getAllGeofences gf ∧
           zone_type zone = circle ∧ zone_coordinates zone = []).
Proof.
  unfold checkGeofenceEntry, getAllGeofences. split.
  - intros Hall. by rewrite entered_filter.
  - split.
    + intros Hthrow.
      destruct (decide (Forall (λ zone, has_centre zone = true) gf.*2))
        as [Hall|Hex].
      { by rewrite entered_filter in Hthrow. }
      apply not_Forall_Exists in Hex; [|apply _].
      apply Exists_exists in Hex as (zone & Hin & Hc).
      exists zone. split; [done|]. unfold has_centre, compose in Hc.
      destruct (zone_type zone); [|by destruct Hc].
      destruct (zone_coordinates zone); [done | by destruct Hc].
    + intros (zone & Hin & Ht & Hc).
      apply (entered_no_centre cd lat lng _ zone Hin).
      unfold has_centre. by rewrite Ht, Hc.
Qed.

(** X23. [removeGeofence] undoes an [addGeofence] under an id that was
    not stored, and an [addGeofence] under a stored id keeps the number
    and the order of the zones. *)
Theorem addGeofence_removeGeofence gf zone :
  (Map_has gf (zone_id zone) = false →
   removeGeofence (addGeofence gf zone) (zone_id zone) = gf ∧
   getAllGeofences (addGeofence gf zone) = getAllGeofences gf ++ [zone]) ∧
  (Map_has gf (zone_id zone) = true →
   Map_keys (addGeofence gf zone) = Map_keys gf) ∧
  Map_get (addGeofence gf zone) (zone_id zone) = Some zone ∧
  Map_has (removeGeofence gf (zone_id zone)) (zone_id zone) = false.
Proof.
  unfold addGeofence, removeGeofence, getAllGeofences. split_and!.
  - intros Hfresh. rewrite Map_set_fresh by done. split.
    + rewrite filter_app, filter_cons, decide_False by (intros H; by apply H).
      rewrite filter_nil, app_nil_r.
      apply Map_has_false in Hfresh. unfold Map_keys in Hfresh.
      induction gf as [|[k z] gf IH]; [done|].
      rewrite filter_cons. apply not_elem_of_cons in Hfresh as [Hk Hfresh].
      rewrite decide_True by done. f_equal. by apply IH.
    + by rewrite fmap_app.
  - apply Map_set_keys_stored.
  - apply Map_get_set_eq.
  - apply Map_has_false. unfold Map_keys.
    intros ([k z] & Hk & Hin)%list_elem_of_fmap.
    apply list_elem_of_filter in Hin as [Hne _]. simpl in *. by subst.
Qed.

(** ** The state of a point *)

Lemma in_range_spec lat lng state :
  in_range lat lng state = true ↔
  latMin state <= lat ∧ lat <= latMax state ∧
  lngMin state <= lng ∧ lng <= lngMax state.
Proof.
  unfold in_range. rewrite !andb_true_iff, !Qle_bool_iff. tauto.
Qed.

(** X24. [getIndianStateFromCoordinates] answers with one of eight state
    names or with [Unknown]; the entry of Delhi is never reached, for
    the range of Rajasthan, which is tried before, holds every point of
    the range of Delhi. *)
Theorem getIndianStateFromCoordinates_spec lat lng :
  getIndianStateFromCoordinates lat lng
  ∈ ["Maharashtra"; "Karnataka"; "Tamil Nadu"; "Gujarat"; "Rajasthan";
     "Uttar Pradesh"; "Madhya Pradesh"; "West Bengal"; "Unknown"] ∧
  (284 # 10 <= lat ∧ lat <= 289 # 10 ∧ 768 # 10 <= lng ∧ lng <= 773 # 10 →
   getIndianStateFromCoordinates lat lng = "Rajasthan").
Proof.
  unfold getIndianStateFromCoordinates, stateRanges. cbn [List.find]. split.
  - repeat match goal with
    | |- context [in_range lat lng ?s] =>
        let H := fresh "H" in
        destruct (in_range lat lng s) eqn:H;
          [cbn [range_name];
           try (repeat (first [left; reflexivity | right]); fail)|]
    end.
    + exfalso.
      repeat match goal with
      | H : in_range _ _ {| range_name := ?n |} = false |- _ =>
          lazymatch n with
          | "Rajasthan" => fail
          | _ => clear H
          end
      end.
      apply in_range_spec in H7. cbn [latMin latMax lngMin lngMax] in H7.
      apply not_true_iff_false in H3. apply H3, in_range_spec.
      cbn [latMin latMax lngMin lngMax]. lra.
    + repeat (first [left; reflexivity | right]).
  - intros (H1 & H2 & H3 & H4).
    repeat match goal with
    | |- context [in_range lat lng ?s] =>
        first
          [ assert (in_range lat lng s = false) as ->
              by (apply not_true_iff_false; intros Hx%in_range_spec;
                  cbn [latMin latMax lngMin lngMax] in Hx; lra)
          | assert (in_range lat lng s = true) as ->
              by (apply in_range_spec; cbn [latMin latMax lngMin lngMax];
                  lra) ]
    end.
    reflexivity.
Qed.
